(** * Golden-image uploader: a shallow embedding of [uploader.go]

    The Go package [goldenimage] talks to a cluster through client-go.  The
    cluster is modelled as a read-only oracle ([World]) that fixes the answer
    of every API call; the calls a run makes, in order, are recorded in an
    event log threaded through a small state monad. *)

From Stdlib Require Import ZArith Ascii String SpecFloat DecimalString.
From stdpp Require Import base option list strings gmap fin_maps.

Set Warnings "-register-all".
Local Open Scope string_scope.
Local Open Scope Z_scope.

(** ** Unstructured objects

    [unstructured.Unstructured.Object] is a [map[string]interface{}]: a tree
    of JSON values.  Go maps have unique keys and no order, hence [gmap]. *)

Inductive Value : Type :=
| VNull
| VBool (b : bool)
| VNum (n : Z)
| VStr (s : string)
| VList (l : list Value)
| VMap (m : gmap string Value).

(** Go type assertions [v.(map[string]interface{})], [v.(string)] and
    [v.([]interface{})] on the result of a map index; an absent key yields
    the nil interface, on which every assertion fails. *)

Definition asMap (v : option Value) : option (gmap string Value) :=
  match v with Some (VMap m) => Some m | _ => None end.

Definition asString (v : option Value) : option string :=
  match v with Some (VStr s) => Some s | _ => None end.

Definition asList (v : option Value) : option (list Value) :=
  match v with Some (VList l) => Some l | _ => None end.

(** ** Errors *)

Inductive StatusReason := ReasonNotFound | ReasonAlreadyExists | ReasonOther.

Inductive error : Type :=
| StatusError (reason : StatusReason) (msg : string) (* API status error *)
| DeadlineExceeded                                   (* context deadline *)
| PathError (msg : string)                           (* os / io failure *)
| TransportError (msg : string)                      (* exec stream failure *)
| ErrorString (msg : string)                         (* fmt.Errorf without verb *)
| Errorf (prefix : string) (wrapped : error)         (* fmt.Errorf("prefix: %w", err) *)
| ErrorfV (prefix : string) (shown : list Value).    (* fmt.Errorf("prefix: %v", v) *)

(** [k8serrors.IsNotFound] and [IsAlreadyExists] look through wrapping. *)
Fixpoint IsNotFound (e : error) : bool :=
  match e with
  | StatusError ReasonNotFound _ => true
  | Errorf _ e' => IsNotFound e'
  | _ => false
  end.

Fixpoint IsAlreadyExists (e : error) : bool :=
  match e with
  | StatusError ReasonAlreadyExists _ => true
  | Errorf _ e' => IsAlreadyExists e'
  | _ => false
  end.

(** A Go pair [(T, error)]. *)
Inductive Result (A : Type) : Type :=
| Ok (a : A)
| Err (e : error).
Arguments Ok {A} a.
Arguments Err {A} e.

(** ** The uploader and the cluster it talks to *)

Record GoldenImageUploader := {
  namespace : string;
  pvcName : string;
  pvcSize : string;
  storageClass : string;
}.

(** [corev1.PodCondition], reduced to the two fields the code reads. *)
Record PodCondition := { condType : string; condStatus : string }.

(** What became of the goroutine that writes the tar stream: the value it
    sends on [errChan]. *)
Inductive TarOutcome :=
| TarWritten (written : Z)
| TarHeaderFailed (e : error)
| TarCopyFailed (e : error).

(** Answers of the outside world.  Calls that are polled take the number of
    earlier polls; [podTicks] and [dvTicks] say how many ticks of the poll
    timer fire before the timeout (or the caller's context) expires. *)
Record World := {
  statPath : string -> Result Z;
  getNamespace : string -> Result (gmap string string);
  listCUDN : Result (list (gmap string Value));
  listUDN : string -> Result (list (gmap string Value));
  createPod : option error;
  getPod : nat -> Result (list PodCondition);
  podTicks : nat;
  createService : option error;
  openFile : string -> option error;
  fileStat : string -> Result Z;
  newExecutor : option error;
  execStream : option error;
  tarWriter : TarOutcome;
  createDV : Value -> option error;
  getDV : nat -> Result (gmap string Value);
  dvTicks : nat;
  deleteService : option error;
  deletePod : option error;
}.

(** Lines written to standard output. *)
Inductive Output :=
| OutLine (s : string)
| OutImageSize (bytes : Z)            (* "Image size: %d bytes (%.2f GB)" *)
| OutWarning (what : string) (e : error). (* "Warning: failed to delete <what>: %v" *)

Inductive Event :=
| EvPrint (o : Output)
| EvGetNamespace
| EvListCUDN
| EvListUDN
| EvCreatePod
| EvGetPod
| EvCreateService
| EvOpenFile
| EvFileStat
| EvCloseFile
| EvStartTarWriter
| EvNewExecutor
| EvExecStream
| EvRecvErrChan
| EvCreateDataVolume (dv : Value)
| EvGetDataVolume
| EvDeleteService
| EvDeletePod.

(** Mutable state of one run: the log (oldest event first), the poll
    counters, and the [lastPhase] variable captured by the closure of
    [waitForDataVolume]. *)
Record State := {
  log : list Event;
  podGets : nat;
  dvGets : nat;
  lastPhase : string;
}.

Definition initState : State :=
  {| log := []; podGets := 0; dvGets := 0; lastPhase := "" |}.

Definition M (A : Type) : Type := State -> A * State.

Definition ret {A} (a : A) : M A := fun s => (a, s).

Definition bind {A B} (c : M A) (k : A -> M B) : M B :=
  fun s => let (a, s') := c s in k a s'.

Notation "x <- c ;; k" := (bind c (fun x => k))
  (at level 20, c at level 99, k at level 200, only parsing).
Notation "c ;; k" := (bind c (fun _ => k))
  (at level 100, k at level 200, right associativity, only parsing).

Definition emit (e : Event) : M unit :=
  fun s => (tt, {| log := log s ++ [e]; podGets := podGets s;
                   dvGets := dvGets s; lastPhase := lastPhase s |}).

Definition println (line : string) : M unit := emit (EvPrint (OutLine line)).

(** ** Primary-UDN detection *)

Definition udnLabel : string := "k8s.ovn.org/primary-user-defined-network".

Definition roleIsPrimary (layer : gmap string Value) : bool :=
  match asString (layer !! "role") with
  | Some role => String.eqb role "Primary"
  | None => false
  end.

Definition layerIsPrimary (m : gmap string Value) (layer : string) : bool :=
  match asMap (m !! layer) with
  | Some l => roleIsPrimary l
  | None => false
  end.

Definition hasPrimaryRole (spec : gmap string Value) : bool :=
  if match asMap (spec !! "network") with
     | Some network =>
         if layerIsPrimary network "layer2" then true
         else layerIsPrimary network "layer3"
     | None => false
     end
  then true
  else if layerIsPrimary spec "layer2" then true
  else layerIsPrimary spec "layer3".

(** ** Label selectors (k8s.io/apimachinery)

    [selectorMatchesNamespace] hands the selector it has parsed to
    [metav1.LabelSelectorAsSelector] and [labels.Selector.Matches].  Both
    belong to the apimachinery module the package imports; they are
    transcribed here from that module: [validation.IsQualifiedName],
    [validation.IsValidLabelValue], [labels.NewRequirement],
    [labels.Requirement.Matches]. *)

Module validation.

Definition isLower (c : ascii) : bool := (("a" <=? c) && (c <=? "z"))%char.
Definition isUpper (c : ascii) : bool := (("A" <=? c) && (c <=? "Z"))%char.
Definition isDigit (c : ascii) : bool := (("0" <=? c) && (c <=? "9"))%char.

(** [[A-Za-z0-9]] and [[-A-Za-z0-9_.]] *)
Definition qnameChar (c : ascii) : bool := isUpper c || isLower c || isDigit c.
Definition qnameExtChar (c : ascii) : bool :=
  qnameChar c || Ascii.eqb c "-" || Ascii.eqb c "_" || Ascii.eqb c ".".

(** [[a-z0-9]] and [[-a-z0-9]] *)
Definition dnsChar (c : ascii) : bool := isLower c || isDigit c.
Definition dnsExtChar (c : ascii) : bool := dnsChar c || Ascii.eqb c "-".

Fixpoint allChars (p : ascii -> bool) (s : string) : bool :=
  match s with
  | EmptyString => true
  | String c rest => p c && allChars p rest
  end.

Definition firstChar (p : ascii -> bool) (s : string) : bool :=
  match s with
  | EmptyString => false
  | String c _ => p c
  end.

Fixpoint lastChar (p : ascii -> bool) (s : string) : bool :=
  match s with
  | EmptyString => false
  | String c EmptyString => p c
  | String _ rest => lastChar p rest
  end.

(** A whole-string match: one [edge] character, or an [edge] character,
    any number of [ext] characters and an [edge] character. *)
Definition edged (edge ext : ascii -> bool) (s : string) : bool :=
  firstChar edge s && lastChar edge s && allChars ext s.

(** [strings.Split(s, sep)] for a one-byte separator. *)
Fixpoint Split (sep : ascii) (s : string) : list string :=
  match s with
  | EmptyString => [EmptyString]
  | String c rest =>
      if Ascii.eqb c sep then EmptyString :: Split sep rest
      else match Split sep rest with
           | p :: ps => String c p :: ps
           | [] => [String c EmptyString]
           end
  end.

Definition len (s : string) : Z := Z.of_nat (String.length s).

(** [qualifiedNameFmt]: alphanumeric at both ends, with dashes,
    underscores and dots allowed in between. *)
Definition qualifiedNameRegexp : string -> bool := edged qnameChar qnameExtChar.
Definition qualifiedNameMaxLength : Z := 63.

(** [dns1123SubdomainFmt]: dot-separated DNS labels, each lower-case
    alphanumeric at both ends with dashes allowed in between. *)
Definition dns1123SubdomainRegexp (s : string) : bool :=
  forallb (edged dnsChar dnsExtChar) (Split "." s).
Definition DNS1123SubdomainMaxLength : Z := 253.

Definition IsDNS1123Subdomain (value : string) : bool :=
  (len value <=? DNS1123SubdomainMaxLength) && dns1123SubdomainRegexp value.

(** [true] when the Go function returns no error message. *)
Definition IsQualifiedName (value : string) : bool :=
  let nameOk name :=
    negb (len name =? 0) && (len name <=? qualifiedNameMaxLength)
    && qualifiedNameRegexp name in
  match Split "/" value with
  | [name] => nameOk name
  | [prefix; name] =>
      negb (len prefix =? 0) && IsDNS1123Subdomain prefix && nameOk name
  | _ => false
  end.

Definition LabelValueMaxLength : Z := 63.

(** [labelValueFmt]: empty, or as [qualifiedNameFmt]. *)
Definition IsValidLabelValue (value : string) : bool :=
  (len value <=? LabelValueMaxLength)
  && ((len value =? 0) || qualifiedNameRegexp value).

End validation.

Module labels.

(** The [selection.Operator]s that [LabelSelectorAsSelector] produces. *)
Inductive Operator := OpEquals | OpIn | OpNotIn | OpExists | OpDoesNotExist.

Record Requirement := {
  key : string;
  operator : Operator;
  strValues : list string;
}.

(** [NewRequirement]: [None] when the aggregate of validation errors is
    not empty. *)
Definition NewRequirement (k : string) (op : Operator) (vals : list string)
  : option Requirement :=
  let arityOk :=
    match op with
    | OpIn | OpNotIn => negb (Nat.eqb (length vals) 0)
    | OpEquals => Nat.eqb (length vals) 1
    | OpExists | OpDoesNotExist => Nat.eqb (length vals) 0
    end in
  if validation.IsQualifiedName k && arityOk
     && forallb validation.IsValidLabelValue vals
  then Some {| key := k; operator := op; strValues := vals |}
  else None.

Definition hasValue (r : Requirement) (v : string) : bool :=
  existsb (String.eqb v) (strValues r).

(** [Requirement.Matches] on [labels.Set]. *)
Definition Matches (r : Requirement) (ls : gmap string string) : bool :=
  match operator r with
  | OpIn | OpEquals =>
      match ls !! key r with
      | None => false
      | Some v => hasValue r v
      end
  | OpNotIn =>
      match ls !! key r with
      | None => true
      | Some v => negb (hasValue r v)
      end
  | OpExists => bool_decide (is_Some (ls !! key r))
  | OpDoesNotExist => negb (bool_decide (is_Some (ls !! key r)))
  end.

(** A selector is a conjunction of requirements; [Everything()] is the
    empty one. *)
Definition Selector := list Requirement.

Definition SelectorMatches (sel : Selector) (ls : gmap string string) : bool :=
  forallb (fun r => Matches r ls) sel.

End labels.

Module metav1.

Record LabelSelectorRequirement := {
  Key : string;
  Operator : string;
  Values : list string;
}.

Record LabelSelector := {
  MatchLabels : gmap string string;
  MatchExpressions : list LabelSelectorRequirement;
}.

Definition operatorOf (op : string) : option labels.Operator :=
  if String.eqb op "In" then Some labels.OpIn
  else if String.eqb op "NotIn" then Some labels.OpNotIn
  else if String.eqb op "Exists" then Some labels.OpExists
  else if String.eqb op "DoesNotExist" then Some labels.OpDoesNotExist
  else None.

Definition requirementOfExpr (expr : LabelSelectorRequirement)
  : option labels.Requirement :=
  match operatorOf (Operator expr) with
  | Some op => labels.NewRequirement (Key expr) op (Values expr)
  | None => None
  end.

(** [LabelSelectorAsSelector]: [None] stands for the error return.  The
    selector's requirements are a conjunction, so the order in which the
    Go map [MatchLabels] is ranged over does not show in the result. *)
Definition LabelSelectorAsSelector (ps : LabelSelector) : option labels.Selector :=
  if Nat.eqb (size (MatchLabels ps) + length (MatchExpressions ps)) 0
  then Some []
  else
    eqs ← mapM (fun kv : string * string =>
                  labels.NewRequirement kv.1 labels.OpEquals [kv.2])
               (map_to_list (MatchLabels ps));
    exprs ← mapM requirementOfExpr (MatchExpressions ps);
    Some (eqs ++ exprs)%list.

End metav1.

(** [selectorMatchesNamespace], parsing half: [nsSelector] to
    [metav1.LabelSelector]. *)

Definition stringsOf (l : list Value) : list string :=
  omap (fun v => asString (Some v)) l.

Definition parseMatchLabels (nsSelector : gmap string Value) : gmap string string :=
  match asMap (nsSelector !! "matchLabels") with
  | Some matchLabels => omap (fun v => asString (Some v)) matchLabels
  | None => ∅
  end.

Definition parseRequirement (exprMap : gmap string Value)
  : metav1.LabelSelectorRequirement :=
  {| metav1.Key := default "" (asString (exprMap !! "key"));
     metav1.Operator := default "" (asString (exprMap !! "operator"));
     metav1.Values := match asList (exprMap !! "values") with
                      | Some values => stringsOf values
                      | None => []
                      end |}.

Definition parseMatchExpressions (nsSelector : gmap string Value)
  : list metav1.LabelSelectorRequirement :=
  match asList (nsSelector !! "matchExpressions") with
  | Some matchExpressions =>
      omap (fun expr => parseRequirement <$> asMap (Some expr)) matchExpressions
  | None => []
  end.

Definition selectorMatchesNamespace
  (spec : gmap string Value) (nsLabels : gmap string string) : bool :=
  match asMap (spec !! "namespaceSelector") with
  | None => false
  | Some nsSelector =>
      let labelSelector :=
        {| metav1.MatchLabels := parseMatchLabels nsSelector;
           metav1.MatchExpressions := parseMatchExpressions nsSelector |} in
      match metav1.LabelSelectorAsSelector labelSelector with
      | None => false
      | Some selector => labels.SelectorMatches selector nsLabels
      end
  end.

(** ** Polling (k8s.io/apimachinery/pkg/util/wait)

    [wait.PollUntilContextTimeout(ctx, interval, timeout, immediate, cond)]:
    with [immediate] the condition is tried at once; after that each round
    waits for the context's end or the next timer tick, whichever comes
    first.  [ticks] is the number of ticks that fire before the context
    ends.  A condition error, or a condition that holds, ends the loop. *)

Fixpoint pollLoop (ticks : nat) (condition : M (Result bool)) : M (option error) :=
  match ticks with
  | O => ret (Some DeadlineExceeded)
  | S ticks' =>
      r <- condition ;;
      match r with
      | Err err => ret (Some err)
      | Ok true => ret None
      | Ok false => pollLoop ticks' condition
      end
  end.

Definition PollUntilContextTimeout
  (ticks : nat) (immediate : bool) (condition : M (Result bool)) : M (option error) :=
  if immediate then
    r <- condition ;;
    match r with
    | Err err => ret (Some err)
    | Ok true => ret None
    | Ok false => pollLoop ticks condition
    end
  else pollLoop ticks condition.

(** Go's [defer]: the deferred call runs when the rest of the function has
    produced its return value. *)
Definition defer {A} (deferred : M unit) (rest : M A) : M A :=
  r <- rest ;; deferred ;; ret r.

(** ** The methods of [GoldenImageUploader] *)

Definition serverPodName : string := "mcs-image-server".
Definition serverSvcName : string := "mcs-image-server".
Definition serverPort : Z := 80.

Definition DVPhaseSucceeded : string := "Succeeded".
Definition DVPhaseFailed : string := "Failed".

(** [%d] of [fmt]. *)
Definition formatInt (n : Z) : string := NilZero.string_of_int (Z.to_int n).

Section Methods.

Variable w : World.
Variable u : GoldenImageUploader.

(** The loop over [cudnList.Items]; [true] is the [return true, nil]
    inside it. *)
Fixpoint cudnLoop (nsLabels : gmap string string)
  (items : list (gmap string Value)) : bool :=
  match items with
  | [] => false
  | cudn :: rest =>
      match asMap (cudn !! "spec") with
      | None => cudnLoop nsLabels rest
      | Some spec =>
          if negb (hasPrimaryRole spec) then cudnLoop nsLabels rest
          else if selectorMatchesNamespace spec nsLabels then true
          else cudnLoop nsLabels rest
      end
  end.

(** The loop over [udnList.Items]. *)
Fixpoint udnLoop (items : list (gmap string Value)) : bool :=
  match items with
  | [] => false
  | udn :: rest =>
      match asMap (udn !! "spec") with
      | None => udnLoop rest
      | Some spec => if hasPrimaryRole spec then true else udnLoop rest
      end
  end.

Definition checkNamespaceScopedUDN (nsLabels : gmap string string) : M (Result bool) :=
  emit EvListUDN ;;
  match listUDN w (namespace u) with
  | Err err =>
      if IsNotFound err then ret (Ok false)
      else ret (Err (Errorf "listing UDNs" err))
  | Ok items => ret (Ok (udnLoop items))
  end.

Definition namespaceHasPrimaryUDN : M (Result bool) :=
  emit EvGetNamespace ;;
  match getNamespace w (namespace u) with
  | Err err => ret (Err (Errorf "getting namespace" err))
  | Ok nsLabels =>
      match nsLabels !! udnLabel with
      | None => ret (Ok false)
      | Some _ =>
          emit EvListCUDN ;;
          match listCUDN w with
          | Err err =>
              if IsNotFound err then checkNamespaceScopedUDN nsLabels
              else ret (Err (Errorf "listing CUDNs" err))
          | Ok items =>
              if cudnLoop nsLabels items then ret (Ok true)
              else checkNamespaceScopedUDN nsLabels
          end
      end
  end.

(** *** Ephemeral origin server *)

Definition nextPodGet : M (Result (list PodCondition)) :=
  fun s => (getPod w (podGets s),
            {| log := log s ++ [EvGetPod]; podGets := S (podGets s);
               dvGets := dvGets s; lastPhase := lastPhase s |}).

Definition isReady (cond : PodCondition) : bool :=
  String.eqb (condType cond) "Ready" && String.eqb (condStatus cond) "True".

(** The condition closure of [createServerPod]. *)
Definition podReady : M (Result bool) :=
  r <- nextPodGet ;;
  match r with
  | Err err => ret (Err err)
  | Ok conditions => ret (Ok (existsb isReady conditions))
  end.

Definition createServerPod : M (option error) :=
  emit EvCreatePod ;;
  match createPod w with
  | Some err =>
      if negb (IsAlreadyExists err) then ret (Some err)
      else PollUntilContextTimeout (podTicks w) true podReady
  | None => PollUntilContextTimeout (podTicks w) true podReady
  end.

Definition createServerService : M (option error) :=
  emit EvCreateService ;;
  match createService w with
  | Some err => if negb (IsAlreadyExists err) then ret (Some err) else ret None
  | None => ret None
  end.

(** *** Streaming *)

(** What the tar-writing goroutine sends on [errChan]. *)
Definition tarWriterSends (o : TarOutcome) : option error :=
  match o with
  | TarHeaderFailed err => Some (Errorf "writing tar header" err)
  | TarCopyFailed err => Some (Errorf "copying file to tar" err)
  | TarWritten _ => None
  end.

Definition streamImageToPod (localImagePath : string) : M (option error) :=
  emit EvOpenFile ;;
  match openFile w localImagePath with
  | Some err => ret (Some (Errorf "opening local file" err))
  | None =>
      defer (emit EvCloseFile)
        (emit EvFileStat ;;
         match fileStat w localImagePath with
         | Err err => ret (Some (Errorf "stat local file" err))
         | Ok size =>
             emit (EvPrint (OutImageSize size)) ;;
             emit EvStartTarWriter ;;
             emit EvNewExecutor ;;
             match newExecutor w with
             | Some err => ret (Some (Errorf "creating executor" err))
             | None =>
                 emit EvExecStream ;;
                 match execStream w with
                 | Some err => ret (Some (Errorf "streaming to pod" err))
                 | None =>
                     emit EvRecvErrChan ;;
                     match tarWriterSends (tarWriter w) with
                     | Some tarErr => ret (Some tarErr)
                     | None => ret None
                     end
                 end
             end
         end)
  end.

(** *** Import job *)

Definition httpURL : string :=
  "http://" ++ serverSvcName ++ "." ++ namespace u ++ ".svc.cluster.local:"
  ++ formatInt serverPort ++ "/disk.qcow2".

Definition dataVolume : Value :=
  let storage : gmap string Value :=
    {[ "resources" :=
         VMap {[ "requests" := VMap {[ "storage" := VStr (pvcSize u) ]} ]} ]} in
  let storage :=
    if negb (String.eqb (storageClass u) "")
    then <[ "storageClassName" := VStr (storageClass u) ]> storage
    else storage in
  VMap (<[ "apiVersion" := VStr "cdi.kubevirt.io/v1beta1" ]>
        (<[ "kind" := VStr "DataVolume" ]>
         (<[ "metadata" :=
               VMap (<[ "name" := VStr (pvcName u) ]>
                     (<[ "namespace" := VStr (namespace u) ]>
                      {[ "annotations" :=
                           VMap {[ "cdi.kubevirt.io/storage.bind.immediate.requested"
                                   := VStr "" ]} ]})) ]>
          {[ "spec" :=
               VMap (<[ "source" := VMap {[ "http" := VMap {[ "url" := VStr httpURL ]} ]} ]>
                     {[ "storage" := VMap storage ]}) ]}))).

Definition createDataVolume : M (option error) :=
  emit (EvCreateDataVolume dataVolume) ;;
  match createDV w dataVolume with
  | Some err => ret (Some (Errorf "creating DataVolume" err))
  | None => ret None
  end.

Definition nextDVGet : M (Result (gmap string Value)) :=
  fun s => (getDV w (dvGets s),
            {| log := log s ++ [EvGetDataVolume]; podGets := podGets s;
               dvGets := S (dvGets s); lastPhase := lastPhase s |}).

Definition getLastPhase : M string := fun s => (lastPhase s, s).

Definition setLastPhase (phase : string) : M unit :=
  fun s => (tt, {| log := log s; podGets := podGets s;
                   dvGets := dvGets s; lastPhase := phase |}).

(** The condition closure of [waitForDataVolume]. *)
Definition dvDone : M (Result bool) :=
  r <- nextDVGet ;;
  match r with
  | Err err => ret (Err (Errorf "getting DataVolume" err))
  | Ok dv =>
      match asMap (dv !! "status") with
      | None => ret (Ok false)
      | Some status =>
          let phase := default "" (asString (status !! "phase")) in
          last <- getLastPhase ;;
          (if negb (String.eqb phase last)
           then println ("DataVolume phase: " ++ phase) ;; setLastPhase phase
           else ret tt) ;;
          if String.eqb phase DVPhaseFailed then
            let conditions := default [] (asList (status !! "conditions")) in
            ret (Err (ErrorfV "DataVolume failed" conditions))
          else ret (Ok (String.eqb phase DVPhaseSucceeded))
      end
  end.

Definition waitForDataVolume : M (option error) :=
  setLastPhase "" ;;
  PollUntilContextTimeout (dvTicks w) true dvDone.

(** *** Cleanup and orchestration *)

Definition cleanup : M unit :=
  println "Cleaning up ephemeral resources..." ;;
  emit EvDeleteService ;;
  match deleteService w with
  | Some err =>
      if negb (IsNotFound err) then emit (EvPrint (OutWarning "service" err))
      else ret tt
  | None => ret tt
  end ;;
  emit EvDeletePod ;;
  match deletePod w with
  | Some err =>
      if negb (IsNotFound err) then emit (EvPrint (OutWarning "pod" err))
      else ret tt
  | None => ret tt
  end.

Definition uploadViaHTTPSource (localImagePath : string) : M (option error) :=
  println "Creating ephemeral image server pod..." ;;
  e <- createServerPod ;;
  match e with
  | Some err => ret (Some (Errorf "creating server pod" err))
  | None =>
      defer cleanup
        (println "Creating image server service..." ;;
         e <- createServerService ;;
         match e with
         | Some err => ret (Some (Errorf "creating server service" err))
         | None =>
             println ("Streaming image " ++ localImagePath ++ " to pod...") ;;
             e <- streamImageToPod localImagePath ;;
             match e with
             | Some err => ret (Some (Errorf "streaming image" err))
             | None =>
                 println "Creating DataVolume with HTTP source..." ;;
                 e <- createDataVolume ;;
                 match e with
                 | Some err => ret (Some (Errorf "creating DataVolume" err))
                 | None =>
                     println "Waiting for DataVolume to complete..." ;;
                     e <- waitForDataVolume ;;
                     match e with
                     | Some err => ret (Some (Errorf "waiting for DataVolume" err))
                     | None =>
                         println ("Golden image " ++ pvcName u
                                  ++ " created successfully") ;;
                         ret None
                     end
                 end
             end
         end)
  end.

Definition uploadViaProxy (localImagePath : string) : M (option error) :=
  ret (Some (ErrorString
    "standard upload flow not implemented - use virtctl image-upload for non-UDN namespaces")).

Definition Upload (localImagePath : string) : M (option error) :=
  match statPath w localImagePath with
  | Err err => ret (Some (Errorf "local image not found" err))
  | Ok _ =>
      r <- namespaceHasPrimaryUDN ;;
      match r with
      | Err err => ret (Some (Errorf "detecting UDN" err))
      | Ok true =>
          println ("Detected Primary UDN in namespace " ++ namespace u
                   ++ ", using HTTP source workflow") ;;
          uploadViaHTTPSource localImagePath
      | Ok false =>
          println ("No Primary UDN detected in namespace " ++ namespace u
                   ++ ", using standard upload flow") ;;
          uploadViaProxy localImagePath
      end
  end.

End Methods.

(** ** Size recommendation

    [GetPVCSize] computes in [float64].  IEEE-754 binary64 is Rocq's
    [spec_float] at precision 53 and exponent bound 1024, with
    round-to-nearest-even operations. *)

Module float64.

Definition prec : Z := 53.
Definition emax : Z := 1024.

(** The conversion [float64(n)] of an integer. *)
Definition ofInt (n : Z) : spec_float := binary_normalize prec emax n 0 false.

Definition mul : spec_float -> spec_float -> spec_float := SFmul prec emax.
Definition div : spec_float -> spec_float -> spec_float := SFdiv prec emax.

(** The constant [1.2] rounded to binary64: 0x3FF3333333333333. *)
Definition const_1_2 : spec_float := S754_finite false 5404319552844595 (-52).

(** The conversion [int64(f)]: truncation toward zero.  Outside the range
    of [int64] (and for NaN and infinities) Go leaves the result to the
    implementation; amd64 gives the least [int64]. *)
Definition toInt64 (f : spec_float) : Z :=
  let minInt64 := - 2 ^ 63 in
  match f with
  | S754_zero _ => 0
  | S754_finite s m e =>
      let magnitude :=
        if 0 <=? e then Z.pos m * 2 ^ e else Z.pos m / 2 ^ (- e) in
      if magnitude <? 2 ^ 63
      then (if s then - magnitude else magnitude)
      else minInt64
  | _ => minInt64
  end.

End float64.

Definition GetPVCSize (w : World) (imagePath : string) : Result string :=
  match statPath w imagePath with
  | Err err => Err err
  | Ok size =>
      let sizeBytes := float64.mul (float64.ofInt size) float64.const_1_2 in
      let sizeGi :=
        float64.toInt64
          (float64.div sizeBytes (float64.ofInt (1024 * 1024 * 1024))) + 1 in
      Ok (formatInt sizeGi ++ "Gi")
  end.

(** ** Vocabulary of the statements *)

(** The value found by following [path] through nested maps. *)
Fixpoint lookupPath (v : Value) (path : list string) : option Value :=
  match path with
  | [] => Some v
  | k :: rest =>
      match v with
      | VMap m =>
          match m !! k with
          | Some v' => lookupPath v' rest
          | None => None
          end
      | _ => None
      end
  end.

(** The four places, below [spec], where a role is looked for. *)
Definition primaryRolePaths : list (list string) :=
  [ ["network"; "layer2"; "role"]; ["network"; "layer3"; "role"];
    ["layer2"; "role"]; ["layer3"; "role"] ].

(** A network definition (the [Object] of a list item) with Primary role. *)
Definition definitionIsPrimary (d : gmap string Value) : Prop :=
  ∃ path, path ∈ primaryRolePaths
          ∧ lookupPath (VMap d) ("spec" :: path) = Some (VStr "Primary").

(** A cluster-scoped definition whose selector matches the labels. *)
Definition definitionSelects (d : gmap string Value) (nsLabels : gmap string string) : Prop :=
  ∃ spec, d !! "spec" = Some (VMap spec)
          ∧ selectorMatchesNamespace spec nsLabels = true.

(** The same cluster with other lists of network definitions. *)
Definition withDefinitions (w : World)
  (cudns udns : list (gmap string Value)) : World :=
  {| statPath := statPath w; getNamespace := getNamespace w;
     listCUDN := Ok cudns; listUDN := fun _ => Ok udns;
     createPod := createPod w; getPod := getPod w; podTicks := podTicks w;
     createService := createService w; openFile := openFile w;
     fileStat := fileStat w; newExecutor := newExecutor w;
     execStream := execStream w; tarWriter := tarWriter w;
     createDV := createDV w; getDV := getDV w; dvTicks := dvTicks w;
     deleteService := deleteService w; deletePod := deletePod w |}.

(** A quiet cluster in which every call succeeds, for concrete runs. *)
Definition quietWorld : World :=
  {| statPath := fun _ => Ok 100;
     getNamespace := fun _ => Ok ∅;
     listCUDN := Ok []; listUDN := fun _ => Ok [];
     createPod := None;
     getPod := fun _ => Ok [ {| condType := "Ready"; condStatus := "True" |} ];
     podTicks := 60%nat;
     createService := None; openFile := fun _ => None;
     fileStat := fun _ => Ok 100;
     newExecutor := None; execStream := None; tarWriter := TarWritten 100;
     createDV := fun _ => None;
     getDV := fun _ => Ok {[ "status" := VMap {[ "phase" := VStr "Succeeded" ]} ]};
     dvTicks := 720%nat;
     deleteService := None; deletePod := None |}.

Definition greenUploader : GoldenImageUploader :=
  {| namespace := "green-namespace"; pvcName := "golden-image";
     pvcSize := "30Gi"; storageClass := "gp3-csi" |}.

(** The same cluster with another answer to the pod creation. *)
Definition withCreatePod (w : World) (created : option error) : World :=
  {| statPath := statPath w; getNamespace := getNamespace w;
     listCUDN := listCUDN w; listUDN := listUDN w; createPod := created;
     getPod := getPod w; podTicks := podTicks w;
     createService := createService w; openFile := openFile w;
     fileStat := fileStat w; newExecutor := newExecutor w;
     execStream := execStream w; tarWriter := tarWriter w;
     createDV := createDV w; getDV := getDV w; dvTicks := dvTicks w;
     deleteService := deleteService w; deletePod := deletePod w |}.

(** The same cluster with other outcomes of the exec session and of the tar writer. *)
Definition withStream (w : World) (session : option error) (writer : TarOutcome) : World :=
  {| statPath := statPath w; getNamespace := getNamespace w;
     listCUDN := listCUDN w; listUDN := listUDN w; createPod := createPod w;
     getPod := getPod w; podTicks := podTicks w;
     createService := createService w; openFile := openFile w;
     fileStat := fileStat w; newExecutor := newExecutor w;
     execStream := session; tarWriter := writer; createDV := createDV w;
     getDV := getDV w; dvTicks := dvTicks w;
     deleteService := deleteService w; deletePod := deletePod w |}.

(** The same cluster with other answers to the two deletions of [cleanup]. *)
Definition withDeletes (w : World) (svc pod : option error) : World :=
  {| statPath := statPath w; getNamespace := getNamespace w;
     listCUDN := listCUDN w; listUDN := listUDN w; createPod := createPod w;
     getPod := getPod w; podTicks := podTicks w;
     createService := createService w; openFile := openFile w;
     fileStat := fileStat w; newExecutor := newExecutor w;
     execStream := execStream w; tarWriter := tarWriter w;
     createDV := createDV w; getDV := getDV w; dvTicks := dvTicks w;
     deleteService := svc; deletePod := pod |}.

(** The same cluster with another history of the import job. *)
Definition withDataVolume (w : World) (gets : nat -> Result (gmap string Value)) (ticks : nat) : World :=
  {| statPath := statPath w; getNamespace := getNamespace w;
     listCUDN := listCUDN w; listUDN := listUDN w; createPod := createPod w;
     getPod := getPod w; podTicks := podTicks w;
     createService := createService w; openFile := openFile w;
     fileStat := fileStat w; newExecutor := newExecutor w;
     execStream := execStream w; tarWriter := tarWriter w;
     createDV := createDV w; getDV := gets; dvTicks := ticks;
     deleteService := deleteService w; deletePod := deletePod w |}.

(** The same cluster with another local file system. *)
Definition withStat (w : World) (stat : string -> Result Z) : World :=
  {| statPath := stat; getNamespace := getNamespace w;
     listCUDN := listCUDN w; listUDN := listUDN w; createPod := createPod w;
     getPod := getPod w; podTicks := podTicks w;
     createService := createService w; openFile := openFile w;
     fileStat := fileStat w; newExecutor := newExecutor w;
     execStream := execStream w; tarWriter := tarWriter w;
     createDV := createDV w; getDV := getDV w; dvTicks := dvTicks w;
     deleteService := deleteService w; deletePod := deletePod w |}.

(** The events a computation adds to the log when run from [s]. *)
Definition emitted {A} (c : M A) (s : State) : list Event :=
  drop (length (log s)) (log (c s).2).

Definition isDeleteService (ev : Event) : bool :=
  match ev with EvDeleteService => true | _ => false end.

Definition isDeletePod (ev : Event) : bool :=
  match ev with EvDeletePod => true | _ => false end.

Definition isRecvErrChan (ev : Event) : bool :=
  match ev with EvRecvErrChan => true | _ => false end.

Definition countEvents (p : Event -> bool) (evs : list Event) : nat :=
  length (List.filter p evs).

(** The exec session of [streamImageToPod] is reached: the file opens, its
    size is read and the executor is created. *)
Definition sessionStarts (w : World) (localImagePath : string) : Prop :=
  openFile w localImagePath = None
  ∧ (∃ size, fileStat w localImagePath = Ok size)
  ∧ newExecutor w = None.

(** Every event a computation emits satisfies [P] (and the log only grows). *)
Definition emitsOnly {A} (P : Event -> Prop) (c : M A) : Prop :=
  ∀ s, ∃ evs : list Event, log (c s).2 = (log s ++ evs)%list ∧ Forall P evs.

Definition notDelete (ev : Event) : Prop :=
  isDeleteService ev = false ∧ isDeletePod ev = false.

(** The warning [cleanup] prints for the answer of a deletion. *)
Definition cleanupWarning (what : string) (answer : option error) : list Event :=
  match answer with
  | Some err =>
      if negb (IsNotFound err) then [EvPrint (OutWarning what err)] else []
  | None => []
  end.

(** The events of one execution of [cleanup]. *)
Definition cleanupEvents (w : World) : list Event :=
  ([EvPrint (OutLine "Cleaning up ephemeral resources..."); EvDeleteService]
   ++ cleanupWarning "service" (deleteService w)
   ++ [EvDeletePod] ++ cleanupWarning "pod" (deletePod w))%list.

(** A cluster that refuses to create the server pod, and one whose pod is
    created but is not ready within the timeout. *)
Definition forbiddenWorld : World :=
  withCreatePod quietWorld (Some (StatusError ReasonOther "pods is forbidden")).

Definition neverReadyWorld : World :=
  {| statPath := statPath quietWorld; getNamespace := getNamespace quietWorld;
     listCUDN := listCUDN quietWorld; listUDN := listUDN quietWorld;
     createPod := None; getPod := fun _ => Ok []; podTicks := 2%nat;
     createService := createService quietWorld; openFile := openFile quietWorld;
     fileStat := fileStat quietWorld; newExecutor := newExecutor quietWorld;
     execStream := execStream quietWorld; tarWriter := tarWriter quietWorld;
     createDV := createDV quietWorld; getDV := getDV quietWorld;
     dvTicks := dvTicks quietWorld;
     deleteService := deleteService quietWorld; deletePod := deletePod quietWorld |}.

(** *** The import job as the specification describes it

    What one fetched status tells the waiter. *)

Inductive PollVerdict :=
| KeepPolling
| ImportSucceeded
| ImportFailed (conditions : list Value)
| FetchFailed (err : error).

(** The phase seen in a fetched job: [None] while the status is absent. *)
Definition observedPhase (dv : gmap string Value) : option string :=
  match dv !! "status" with
  | Some (VMap status) =>
      Some match status !! "phase" with Some (VStr phase) => phase | _ => "" end
  | _ => None
  end.

(** The raw condition list of a fetched job. *)
Definition observedConditions (dv : gmap string Value) : list Value :=
  match dv !! "status" with
  | Some (VMap status) =>
      match status !! "conditions" with Some (VList l) => l | _ => [] end
  | _ => []
  end.

Definition verdict (answer : Result (gmap string Value)) : PollVerdict :=
  match answer with
  | Err err => FetchFailed err
  | Ok dv =>
      match observedPhase dv with
      | None => KeepPolling
      | Some phase =>
          if String.eqb phase "Failed" then ImportFailed (observedConditions dv)
          else if String.eqb phase "Succeeded" then ImportSucceeded
          else KeepPolling
      end
  end.

(** What the condition function returns, and what the wait returns, for a
    verdict. *)
Definition conditionOf (v : PollVerdict) : Result bool :=
  match v with
  | KeepPolling => Ok false
  | ImportSucceeded => Ok true
  | ImportFailed conditions => Err (ErrorfV "DataVolume failed" conditions)
  | FetchFailed err => Err (Errorf "getting DataVolume" err)
  end.

Definition outcomeOf (v : PollVerdict) : option error :=
  match v with
  | KeepPolling | ImportSucceeded => None
  | ImportFailed conditions => Some (ErrorfV "DataVolume failed" conditions)
  | FetchFailed err => Some (Errorf "getting DataVolume" err)
  end.

(** The answer to the [i]th fetch of a wait started in state [s], and "no
    verdict before the [i]th fetch". *)
Definition answerAt (w : World) (s : State) (i : nat) : Result (gmap string Value) :=
  getDV w (dvGets s + i).

Definition quietBefore (w : World) (s : State) (i : nat) : Prop :=
  ∀ j, (j < i)%nat → verdict (answerAt w s j) = KeepPolling.

(** The number of status fetches a run of [waitForDataVolume] makes. *)
Definition fetches (w : World) (s : State) : nat :=
  (dvGets (waitForDataVolume w s).2 - dvGets s)%nat.

(** Histories of an import job, one answer per fetch. *)
Definition jobInPhase (phase : string) : gmap string Value :=
  {[ "status" := VMap {[ "phase" := VStr phase ]} ]}.

Definition importFailedConditions : list Value :=
  [ VMap {[ "reason" := VStr "ImportFailed" ]} ].

Definition failingJob (i : nat) : Result (gmap string Value) :=
  match i with
  | 0%nat => Ok {[ "metadata" := VMap ∅ ]}
  | 1%nat => Ok (jobInPhase "ImportScheduled")
  | 2%nat => Ok (jobInPhase "ImportInProgress")
  | _ => Ok {[ "status" :=
                VMap (<[ "phase" := VStr "Failed" ]>
                      {[ "conditions" := VList importFailedConditions ]}) ]}
  end.

Definition flakyJob (i : nat) : Result (gmap string Value) :=
  match i with
  | 0%nat => Ok (jobInPhase "ImportScheduled")
  | 1%nat => Err (StatusError ReasonOther "etcdserver: request timed out")
  | _ => Ok (jobInPhase "Succeeded")
  end.

(** Selectors made of set-based requirements on the key "env". *)
Definition requirementOn (operator : string) (values : option Value) : Value :=
  VMap (<[ "key" := VStr "env" ]>
        (<[ "operator" := VStr operator ]>
         match values with
         | Some v => {[ "values" := v ]}
         | None => ∅
         end)).

Definition specSelecting (exprs : list Value) : gmap string Value :=
  {[ "namespaceSelector" := VMap {[ "matchExpressions" := VList exprs ]} ]}.

(** Concrete network definitions and labels. *)
Definition udnWithRole (role : Value) : gmap string Value :=
  {[ "spec" := VMap {[ "layer2" := VMap {[ "role" := role ]} ]} ]}.

Definition cudnWithSelector (nsSelector : gmap string Value) : gmap string Value :=
  {[ "spec" :=
       VMap (<[ "network" := VMap {[ "layer3" := VMap {[ "role" := VStr "Primary" ]} ]} ]>
             {[ "namespaceSelector" := VMap nsSelector ]}) ]}.

Definition selectEnvProd : gmap string Value :=
  {[ "matchLabels" := VMap {[ "env" := VStr "prod" ]} ]}.

Definition selectEnvDev : gmap string Value :=
  {[ "matchLabels" := VMap {[ "env" := VStr "dev" ]} ]}.

Definition prodLabels : gmap string string :=
  <[ udnLabel := "" ]> {[ "env" := "prod" ]}.

Definition worldWithLabels (nsLabels : gmap string string) : World :=
  {| statPath := statPath quietWorld; getNamespace := fun _ => Ok nsLabels;
     listCUDN := listCUDN quietWorld; listUDN := listUDN quietWorld;
     createPod := createPod quietWorld; getPod := getPod quietWorld;
     podTicks := podTicks quietWorld;
     createService := createService quietWorld; openFile := openFile quietWorld;
     fileStat := fileStat quietWorld; newExecutor := newExecutor quietWorld;
     execStream := execStream quietWorld; tarWriter := tarWriter quietWorld;
     createDV := createDV quietWorld; getDV := getDV quietWorld;
     dvTicks := dvTicks quietWorld;
     deleteService := deleteService quietWorld; deletePod := deletePod quietWorld |}.

(** ** The command-line entry point ([cmd/main.go])

    [main] from the point where [flag.Parse] has returned.  [Flags] holds
    the parsed values; [Host] holds what the process finds around it: whether
    a client configuration can be built from the kubeconfig path, whether
    the two clients can be created from it, and the cluster. *)

Record Flags := {
  flagKubeconfig : string;
  flagNamespace : string;
  flagName : string;
  flagSize : string;
  flagStorageClass : string;
  flagImagePath : string;
}.

Record Host := {
  buildConfig : string -> option error;
  newK8sClient : option error;
  newDynamicClient : option error;
  cluster : World;
}.

(** What [main] itself writes: the usage text with the flag defaults, an
    "Error <what>: <err>" line on standard error, or the final
    confirmation. *)
Inductive ConsoleLine :=
| Usage
| ErrorLine (what : string) (err : error)
| Completed.

(** How the process ends: its exit status, what [main] wrote, and the
    state the upload left. *)
Record Exit := {
  exitCode : Z;
  console : list ConsoleLine;
  run : State;
}.

Definition NewGoldenImageUploader (h : Host)
  (namespace pvcName pvcSize storageClass : string) : Result GoldenImageUploader :=
  match newK8sClient h with
  | Some err => Err (Errorf "creating kubernetes client" err)
  | None =>
      match newDynamicClient h with
      | Some err => Err (Errorf "creating dynamic client" err)
      | None =>
          Ok {| namespace := namespace; pvcName := pvcName;
                pvcSize := pvcSize; storageClass := storageClass |}
      end
  end.

Definition main (h : Host) (f : Flags) : Exit :=
  if String.eqb (flagNamespace f) "" || String.eqb (flagName f) ""
     || String.eqb (flagImagePath f) ""
  then {| exitCode := 1; console := [Usage]; run := initState |}
  else
    match buildConfig h (flagKubeconfig f) with
    | Some err =>
        {| exitCode := 1; console := [ErrorLine "building kubeconfig" err];
           run := initState |}
    | None =>
        match NewGoldenImageUploader h (flagNamespace f) (flagName f)
                (flagSize f) (flagStorageClass f) with
        | Err err =>
            {| exitCode := 1; console := [ErrorLine "creating uploader" err];
               run := initState |}
        | Ok uploader =>
            let (e, s) := Upload (cluster h) uploader (flagImagePath f) initState in
            match e with
            | Some err =>
                {| exitCode := 1; console := [ErrorLine "uploading image" err];
                   run := s |}
            | None => {| exitCode := 0; console := [Completed]; run := s |}
            end
        end
    end.

(** ** Further vocabulary *)

(** The same cluster with other answers to the two list calls. *)
Definition withLists (w : World)
  (cudn udn : Result (list (gmap string Value))) : World :=
  {| statPath := statPath w; getNamespace := getNamespace w;
     listCUDN := cudn; listUDN := fun _ => udn;
     createPod := createPod w; getPod := getPod w; podTicks := podTicks w;
     createService := createService w; openFile := openFile w;
     fileStat := fileStat w; newExecutor := newExecutor w;
     execStream := execStream w; tarWriter := tarWriter w;
     createDV := createDV w; getDV := getDV w; dvTicks := dvTicks w;
     deleteService := deleteService w; deletePod := deletePod w |}.

(** A cluster-scoped definition that makes the detector answer true. *)
Definition clusterMatch (w : World) (nsLabels : gmap string string) : Prop :=
  ∃ items d, listCUDN w = Ok items ∧ d ∈ items
             ∧ definitionIsPrimary d ∧ definitionSelects d nsLabels.

(** The list of cluster-scoped definitions was obtained, or its resource
    type is missing. *)
Definition clusterListUsable (w : World) : Prop :=
  (∃ items, listCUDN w = Ok items)
  ∨ (∃ err, listCUDN w = Err err ∧ IsNotFound err = true).

(** A namespace-scoped definition that makes the detector answer true. *)
Definition namespaceMatch (w : World) (u : GoldenImageUploader) : Prop :=
  ∃ items d, listUDN w (namespace u) = Ok items ∧ d ∈ items
             ∧ definitionIsPrimary d.

(** An equality constraint [k = v] of [matchLabels] is well-formed and holds
    of the labels. *)
Definition equalityHolds (k v : string) (nsLabels : gmap string string) : Prop :=
  validation.IsQualifiedName k = true
  ∧ validation.IsValidLabelValue v = true
  ∧ nsLabels !! k = Some v.

(** A parsed expression of [matchExpressions] is accepted as a requirement
    and that requirement holds of the labels. *)
Definition requirementHolds (expr : metav1.LabelSelectorRequirement)
  (nsLabels : gmap string string) : Prop :=
  ∃ r, metav1.requirementOfExpr expr = Some r
       ∧ labels.Matches r nsLabels = true.

Definition isMapValue (v : Value) : bool :=
  match v with VMap _ => true | _ => false end.

Definition isStringValue (v : Value) : bool :=
  match v with VStr _ => true | _ => false end.

(** The same cluster with other answers to the creation of the pod and of
    the service. *)
Definition withOrigin (w : World) (pod svc : option error) : World :=
  {| statPath := statPath w; getNamespace := getNamespace w;
     listCUDN := listCUDN w; listUDN := listUDN w;
     createPod := pod; getPod := getPod w; podTicks := podTicks w;
     createService := svc; openFile := openFile w;
     fileStat := fileStat w; newExecutor := newExecutor w;
     execStream := execStream w; tarWriter := tarWriter w;
     createDV := createDV w; getDV := getDV w; dvTicks := dvTicks w;
     deleteService := deleteService w; deletePod := deletePod w |}.

(** A creation answered by success or by AlreadyExists. *)
Definition tolerated (answer : option error) : Prop :=
  match answer with
  | None => True
  | Some err => IsAlreadyExists err = true
  end.

(** What one fetch of the server pod tells the readiness wait. *)
Definition podAnswer (w : World) (i : nat) : Result bool :=
  match getPod w i with
  | Err err => Err err
  | Ok conditions => Ok (existsb isReady conditions)
  end.

(** The number of pod fetches a run of [createServerPod] makes. *)
Definition podFetches (w : World) (s : State) : nat :=
  (podGets (createServerPod w s).2 - podGets s)%nat.

Definition isOpenFile (ev : Event) : bool :=
  match ev with EvOpenFile => true | _ => false end.

Definition isCloseFile (ev : Event) : bool :=
  match ev with EvCloseFile => true | _ => false end.

Definition isCreateDataVolume (ev : Event) : bool :=
  match ev with EvCreateDataVolume _ => true | _ => false end.

(** A call that changes the cluster: a creation or a deletion. *)
Definition isMutation (ev : Event) : bool :=
  match ev with
  | EvCreatePod | EvCreateService | EvCreateDataVolume _
  | EvDeleteService | EvDeletePod | EvExecStream => true
  | _ => false
  end.

(** Every step of the HTTP path up to the creation of the import job went
    well: the service is there, the exec session was reached and succeeded,
    and the tar writer reported no error. *)
Definition streamed (w : World) (localImagePath : string) : Prop :=
  tolerated (createService w)
  ∧ sessionStarts w localImagePath
  ∧ execStream w = None
  ∧ tarWriterSends (tarWriter w) = None.

(** The events each step may emit. *)
Definition podEvent (ev : Event) : bool :=
  match ev with EvCreatePod | EvGetPod => true | _ => false end.

Definition streamEvent (ev : Event) : bool :=
  match ev with
  | EvOpenFile | EvFileStat | EvCloseFile | EvStartTarWriter | EvNewExecutor
  | EvExecStream | EvRecvErrChan | EvPrint (OutImageSize _) => true
  | _ => false
  end.

Definition serviceEvent (ev : Event) : bool :=
  match ev with EvCreateService => true | _ => false end.

Definition waitEvent (ev : Event) : bool :=
  match ev with EvGetDataVolume | EvPrint (OutLine _) => true | _ => false end.

Definition cleanupEvent (ev : Event) : bool :=
  match ev with
  | EvDeleteService | EvDeletePod | EvPrint (OutLine _)
  | EvPrint (OutWarning _ _) => true
  | _ => false
  end.

Definition detectionEvent (ev : Event) : bool :=
  match ev with EvGetNamespace | EvListCUDN | EvListUDN => true | _ => false end.

(** A run from [s]: the log grows by some events, and the result and these
    events satisfy [post]. *)
Definition runs {A} (c : M A) (s : State) (post : A -> list Event -> Prop) : Prop :=
  ∃ evs : list Event, log (c s).2 = (log s ++ evs)%list ∧ post (c s).1 evs.

Definition isWarningLine (ev : Event) : bool :=
  match ev with EvPrint (OutWarning _ _) => true | _ => false end.

(** A deletion answered by an error other than NotFound. *)
Definition deletionFailed (answer : option error) : bool :=
  match answer with
  | Some err => negb (IsNotFound err)
  | None => false
  end.

(** The lines a list of events prints, in order. *)
Definition printed (evs : list Event) : list Output :=
  omap (fun ev => match ev with EvPrint o => Some o | _ => None end) evs.

(** No two neighbours of a list are equal. *)
Definition adjacentDistinct {A} (l : list A) : Prop :=
  ∀ i x y, l !! i = Some x → l !! S i = Some y → x ≠ y.

(** The line [waitForDataVolume] prints for a phase. *)
Definition phaseLine (phase : string) : Output :=
  OutLine ("DataVolume phase: " +:+ phase).

(** The printed lines [acc] agree with the remembered phase [lastPhase]:
    no line is repeated at once, the latest line shows the remembered
    phase, and a first line does not show the empty phase. *)
Definition phaseLog (acc : list Output) (lastPhase : string) : Prop :=
  adjacentDistinct acc
  ∧ (∀ o, last acc = Some o → o = phaseLine lastPhase)
  ∧ (acc = [] → lastPhase = "")
  ∧ (∀ o, head acc = Some o → o ≠ phaseLine "").

(** The uploader [main] builds from the flags. *)
Definition uploaderOf (f : Flags) : GoldenImageUploader :=
  {| namespace := flagNamespace f; pvcName := flagName f;
     pvcSize := flagSize f; storageClass := flagStorageClass f |}.

Definition requiredFlagsGiven (f : Flags) : Prop :=
  flagNamespace f ≠ "" ∧ flagName f ≠ "" ∧ flagImagePath f ≠ "".

Definition quietHost (w : World) : Host :=
  {| buildConfig := fun _ => None; newK8sClient := None;
     newDynamicClient := None; cluster := w |}.


(** * Properties *)

Local Open Scope list_scope.

(** ** Role classification *)

Section Classification.

Lemma layerIsPrimary_path (m : gmap string Value) (layer : string) :
  layerIsPrimary m layer = true
  ↔ lookupPath (VMap m) [layer; "role"] = Some (VStr "Primary").
Proof.
  unfold layerIsPrimary, roleIsPrimary. simpl.
  destruct (m !! layer) as [[| | | |?|l]|]; simpl; try (split; discriminate).
  destruct (l !! "role") as [[| | |r| |]|]; simpl; try (split; discriminate).
  rewrite String.eqb_eq. split; [intros ->; reflexivity | congruence].
Qed.

Lemma hasPrimaryRole_paths (spec : gmap string Value) :
  hasPrimaryRole spec = true
  ↔ ∃ path, path ∈ primaryRolePaths
            ∧ lookupPath (VMap spec) path = Some (VStr "Primary").
Proof.
  unfold hasPrimaryRole, primaryRolePaths. split.
  - destruct (asMap (spec !! "network")) as [network|] eqn:Hn.
    + destruct (spec !! "network") as [[| | | |?|n']|] eqn:Hs;
        simpl in Hn; try discriminate. injection Hn as ->.
      destruct (layerIsPrimary network "layer2") eqn:H2.
      { intros _. exists ["network"; "layer2"; "role"]. split; [repeat constructor|].
        apply layerIsPrimary_path in H2. simpl in *. by rewrite Hs. }
      destruct (layerIsPrimary network "layer3") eqn:H3.
      { intros _. exists ["network"; "layer3"; "role"]. split; [repeat constructor|].
        apply layerIsPrimary_path in H3. simpl in *. by rewrite Hs. }
      destruct (layerIsPrimary spec "layer2") eqn:H4.
      { intros _. exists ["layer2"; "role"]. split; [repeat constructor|].
        by apply layerIsPrimary_path. }
      intros H5. exists ["layer3"; "role"]. split; [repeat constructor|].
      by apply layerIsPrimary_path.
    + destruct (layerIsPrimary spec "layer2") eqn:H4.
      { intros _. exists ["layer2"; "role"]. split; [repeat constructor|].
        by apply layerIsPrimary_path. }
      intros H5. exists ["layer3"; "role"]. split; [repeat constructor|].
      by apply layerIsPrimary_path.
  - intros (path & Hin & Hp).
    repeat (apply elem_of_cons in Hin as [-> | Hin]).
    + simpl in Hp. destruct (spec !! "network") as [[| | | |?|network]|];
        try discriminate. simpl.
      apply (layerIsPrimary_path network "layer2") in Hp. by rewrite Hp.
    + simpl in Hp. destruct (spec !! "network") as [[| | | |?|network]|];
        try discriminate. simpl.
      apply (layerIsPrimary_path network "layer3") in Hp. rewrite Hp.
      by destruct (layerIsPrimary network "layer2").
    + apply layerIsPrimary_path in Hp. rewrite Hp.
      by destruct (match asMap (spec !! "network") with
                   | Some _ => _ | None => _ end).
    + apply layerIsPrimary_path in Hp. rewrite Hp.
      destruct (match asMap (spec !! "network") with
                | Some _ => _ | None => _ end); [done|].
      by destruct (layerIsPrimary spec "layer2").
    + by apply elem_of_nil in Hin.
Qed.

End Classification.

(** ** The detector's two loops *)

Section Loops.

Lemma definitionIsPrimary_spec (d : gmap string Value) :
  definitionIsPrimary d
  ↔ ∃ spec, d !! "spec" = Some (VMap spec) ∧ hasPrimaryRole spec = true.
Proof.
  unfold definitionIsPrimary. split.
  - intros (path & Hin & Hp). simpl in Hp.
    destruct (d !! "spec") as [v|] eqn:Hd; [|discriminate].
    assert (∃ spec, v = VMap spec) as [spec ->].
    { repeat (apply elem_of_cons in Hin as [-> | Hin]);
        try (by apply elem_of_nil in Hin);
        destruct v; simpl in Hp; try discriminate; eauto. }
    exists spec. split; [done|]. apply hasPrimaryRole_paths. eauto.
  - intros (spec & Hd & Hp). apply hasPrimaryRole_paths in Hp as (path & Hin & Hp).
    exists path. split; [done|]. simpl. by rewrite Hd.
Qed.

Lemma udnLoop_exists (items : list (gmap string Value)) :
  udnLoop items = true ↔ ∃ d, d ∈ items ∧ definitionIsPrimary d.
Proof.
  induction items as [|d rest IH]; simpl.
  - split; [discriminate|]. intros (d & Hin & _). by apply elem_of_nil in Hin.
  - destruct (asMap (d !! "spec")) as [spec|] eqn:Hs.
    + destruct (d !! "spec") as [[| | | |?|spec']|] eqn:Hd; try discriminate.
      injection Hs as ->.
      destruct (hasPrimaryRole spec) eqn:Hp.
      * split; [intros _|done]. exists d. split; [by apply elem_of_cons; left|].
        apply definitionIsPrimary_spec. eauto.
      * rewrite IH. split.
        -- intros (d' & Hin & Hd'). exists d'. split; [by apply elem_of_cons; right|done].
        -- intros (d' & Hin & Hd'). apply elem_of_cons in Hin as [-> | Hin].
           ++ apply definitionIsPrimary_spec in Hd' as (spec' & Hd' & Hp').
              congruence.
           ++ eauto.
    + rewrite IH. split.
      * intros (d' & Hin & Hd'). exists d'. split; [by apply elem_of_cons; right|done].
      * intros (d' & Hin & Hd'). apply elem_of_cons in Hin as [-> | Hin].
        -- apply definitionIsPrimary_spec in Hd' as (spec' & Hd' & Hp').
           rewrite Hd' in Hs. discriminate.
        -- eauto.
Qed.

Lemma cudnLoop_exists (nsLabels : gmap string string)
  (items : list (gmap string Value)) :
  cudnLoop nsLabels items = true
  ↔ ∃ d, d ∈ items ∧ definitionIsPrimary d ∧ definitionSelects d nsLabels.
Proof.
  induction items as [|d rest IH]; simpl.
  - split; [discriminate|]. intros (d & Hin & _). by apply elem_of_nil in Hin.
  - assert (Hrest :
      cudnLoop nsLabels rest = true
      → ∃ d0, d0 ∈ d :: rest ∧ definitionIsPrimary d0
              ∧ definitionSelects d0 nsLabels).
    { rewrite IH. intros (d' & Hin & Hd'). exists d'. split; [by apply elem_of_cons; right|done]. }
    destruct (asMap (d !! "spec")) as [spec|] eqn:Hs.
    + destruct (d !! "spec") as [[| | | |?|spec']|] eqn:Hd; try discriminate.
      injection Hs as ->.
      destruct (hasPrimaryRole spec) eqn:Hp; simpl.
      * destruct (selectorMatchesNamespace spec nsLabels) eqn:Hm.
        -- split; [intros _|done]. exists d. split; [by apply elem_of_cons; left|]. split.
           ++ apply definitionIsPrimary_spec. eauto.
           ++ exists spec. done.
        -- split; [exact Hrest|].
           intros (d' & Hin & Hd' & (spec' & Hs' & Hm')).
           apply elem_of_cons in Hin as [-> | Hin]; [congruence|].
           apply IH. exists d'. unfold definitionSelects. eauto 8.
      * split; [exact Hrest|].
        intros (d' & Hin & Hd' & Hsel).
        apply elem_of_cons in Hin as [-> | Hin].
        -- apply definitionIsPrimary_spec in Hd' as (spec' & Hd' & Hp').
           congruence.
        -- apply IH. eauto.
    + split; [exact Hrest|].
      intros (d' & Hin & Hd' & Hsel).
      apply elem_of_cons in Hin as [-> | Hin].
      * apply definitionIsPrimary_spec in Hd' as (spec' & Hd' & Hp').
        rewrite Hd' in Hs. discriminate.
      * apply IH. eauto.
Qed.

Lemma udnLoop_perm (l l' : list (gmap string Value)) :
  l ≡ₚ l' → udnLoop l = udnLoop l'.
Proof.
  intros Hperm. apply eq_true_iff_eq. rewrite !udnLoop_exists.
  by setoid_rewrite Hperm.
Qed.

Lemma cudnLoop_perm nsLabels (l l' : list (gmap string Value)) :
  l ≡ₚ l' → cudnLoop nsLabels l = cudnLoop nsLabels l'.
Proof.
  intros Hperm. apply eq_true_iff_eq. rewrite !cudnLoop_exists.
  by setoid_rewrite Hperm.
Qed.

End Loops.

(** ** The detector *)

(** C8. A definition counts as Primary exactly when one of the four role
    paths below [spec] holds the string "Primary", compared case-sensitively;
    both loops of the detector take a definition into account only through
    that test, so a definition whose [spec] is not a map, or whose role is
    not a string, contributes nothing. *)
Theorem primary_role_classification :
  (∀ spec : gmap string Value,
     hasPrimaryRole spec = true
     ↔ ∃ path, path ∈ primaryRolePaths
               ∧ lookupPath (VMap spec) path = Some (VStr "Primary"))
  ∧ hasPrimaryRole {[ "layer2" := VMap {[ "role" := VStr "primary" ]} ]} = false
  ∧ (∀ items : list (gmap string Value),
       udnLoop items = true ↔ ∃ d, d ∈ items ∧ definitionIsPrimary d)
  ∧ (∀ (nsLabels : gmap string string) (items : list (gmap string Value)),
       cudnLoop nsLabels items = true
       ↔ ∃ d, d ∈ items ∧ definitionIsPrimary d ∧ definitionSelects d nsLabels)
  ∧ (∀ d : gmap string Value,
       definitionIsPrimary d → ∃ spec, d !! "spec" = Some (VMap spec))
  ∧ (∀ spec : gmap string Value,
       (∀ path, path ∈ primaryRolePaths →
                ∀ role, lookupPath (VMap spec) path ≠ Some (VStr role)) →
       hasPrimaryRole spec = false).
Proof.
  split; [exact hasPrimaryRole_paths|].
  split; [by vm_compute|].
  split; [exact udnLoop_exists|].
  split; [exact cudnLoop_exists|].
  split.
  - intros d Hd. apply definitionIsPrimary_spec in Hd as (spec & Hd & _). eauto.
  - intros spec Hno. apply not_true_is_false. intros Hp.
    apply hasPrimaryRole_paths in Hp as (path & Hin & Hp).
    by apply (Hno path Hin "Primary").
Qed.

Lemma primary_role_classification_witness :
  hasPrimaryRole
    {[ "network" := VMap {[ "layer3" := VMap {[ "role" := VStr "Primary" ]} ]} ]}
  = true
  ∧ hasPrimaryRole {[ "layer2" := VMap {[ "role" := VNum 1 ]} ]} = false.
Proof.
  destruct primary_role_classification as (Hiff & _ & _ & _ & _ & Hnostr).
  split.
  - apply Hiff. exists ["network"; "layer3"; "role"].
    split; [repeat constructor | reflexivity].
  - apply Hnostr. intros path Hin role.
    repeat (apply elem_of_cons in Hin as [-> | Hin]);
      try (by vm_compute); by apply elem_of_nil in Hin.
Defined.

(** C7. With the namespace's labels fixed, reordering the list of
    cluster-scoped definitions and the list of namespace-scoped definitions
    changes neither the detector's answer nor the calls it makes. *)
Theorem detection_order_independent (w : World) (u : GoldenImageUploader)
  (s : State) (cudns cudns' udns udns' : list (gmap string Value)) :
  cudns ≡ₚ cudns' → udns ≡ₚ udns' →
  namespaceHasPrimaryUDN (withDefinitions w cudns udns) u s
  = namespaceHasPrimaryUDN (withDefinitions w cudns' udns') u s.
Proof.
  intros Hc Hu.
  unfold namespaceHasPrimaryUDN, checkNamespaceScopedUDN, bind. simpl.
  destruct (getNamespace w (namespace u)) as [nsLabels|err]; [|done].
  destruct (nsLabels !! udnLabel); [|done].
  by rewrite (cudnLoop_perm nsLabels _ _ Hc), (udnLoop_perm _ _ Hu).
Qed.

Lemma detection_order_independent_witness :
  namespaceHasPrimaryUDN
    (withDefinitions (worldWithLabels prodLabels)
       [cudnWithSelector selectEnvDev; cudnWithSelector selectEnvProd]
       [udnWithRole (VStr "Secondary"); udnWithRole (VStr "Primary")])
    greenUploader initState
  = namespaceHasPrimaryUDN
      (withDefinitions (worldWithLabels prodLabels)
         [cudnWithSelector selectEnvProd; cudnWithSelector selectEnvDev]
         [udnWithRole (VStr "Primary"); udnWithRole (VStr "Secondary")])
      greenUploader initState.
Proof. apply detection_order_independent; apply perm_swap. Defined.

(** C6. When the namespace's labels lack the marker key, the detector
    answers false without error right after fetching the namespace: neither
    list of network definitions is requested. *)
Theorem no_marker_label_no_udn (w : World) (u : GoldenImageUploader)
  (s : State) (nsLabels : gmap string string) :
  getNamespace w (namespace u) = Ok nsLabels →
  nsLabels !! udnLabel = None →
  namespaceHasPrimaryUDN w u s = (Ok false, (emit EvGetNamespace s).2).
Proof.
  intros Hns Hlabel. unfold namespaceHasPrimaryUDN, bind. simpl.
  by rewrite Hns, Hlabel.
Qed.

Lemma no_marker_label_no_udn_witness :
  namespaceHasPrimaryUDN
    (withDefinitions (worldWithLabels {[ "env" := "prod" ]})
       [cudnWithSelector selectEnvProd] [udnWithRole (VStr "Primary")])
    greenUploader initState
  = (Ok false, (emit EvGetNamespace initState).2).
Proof.
  apply (no_marker_label_no_udn _ _ _ {[ "env" := "prod" ]}); reflexivity.
Defined.

(** ** Streaming *)

Section Streaming.

Lemma emitted_app {A} (c : M A) (s : State) (evs : list Event) :
  log (c s).2 = (log s ++ evs)%list → emitted c s = evs.
Proof. unfold emitted. intros ->. by rewrite drop_app_length. Qed.

(** The run of [streamImageToPod] once the exec session has been reached. *)
Lemma streamImageToPod_session (w : World) (path : string) (s : State) (size : Z) :
  openFile w path = None → fileStat w path = Ok size → newExecutor w = None →
  (streamImageToPod w path s).1
  = match execStream w with
    | Some err => Some (Errorf "streaming to pod" err)
    | None => tarWriterSends (tarWriter w)
    end
  ∧ emitted (streamImageToPod w path) s
    = ([EvOpenFile; EvFileStat; EvPrint (OutImageSize size); EvStartTarWriter;
        EvNewExecutor; EvExecStream]
       ++ match execStream w with Some _ => [] | None => [EvRecvErrChan] end
       ++ [EvCloseFile])%list.
Proof.
  intros Hopen Hstat Hexec.
  unfold streamImageToPod, defer, bind, emit, ret. simpl.
  rewrite Hopen, Hstat. simpl. rewrite Hexec. simpl.
  destruct (execStream w) as [err|]; simpl.
  - split; [done|]. apply emitted_app. simpl. by rewrite <- !app_assoc.
  - destruct (tarWriterSends (tarWriter w)); simpl;
      (split; [done|]; apply emitted_app; simpl; by rewrite <- !app_assoc).
Qed.

Lemma streamImageToPod_success (w : World) (path : string) (s : State) :
  (streamImageToPod w path s).1 = None →
  sessionStarts w path ∧ execStream w = None
  ∧ tarWriterSends (tarWriter w) = None.
Proof.
  unfold sessionStarts, streamImageToPod, defer, bind, emit, ret. simpl.
  destruct (openFile w path); simpl; [discriminate|].
  destruct (fileStat w path) as [size|]; simpl; [|discriminate].
  destruct (newExecutor w); simpl; [discriminate|].
  destruct (execStream w); simpl; [discriminate|].
  destruct (tarWriterSends (tarWriter w)); simpl; [discriminate|].
  eauto 10.
Qed.

End Streaming.

(** C4. [streamImageToPod] returns nil only when the exec session and the
    tar writer both succeeded; when the session succeeded but the writer
    reported a header or copy failure, that failure is returned; when the
    session failed, an error is returned. *)
Theorem push_needs_both_sides (w : World) (path : string) (s : State) :
  ((streamImageToPod w path s).1 = None →
   execStream w = None ∧ ∃ written, tarWriter w = TarWritten written)
  ∧ (sessionStarts w path → execStream w = None →
     (∀ err, tarWriter w = TarHeaderFailed err →
             (streamImageToPod w path s).1 = Some (Errorf "writing tar header" err))
     ∧ (∀ err, tarWriter w = TarCopyFailed err →
               (streamImageToPod w path s).1 = Some (Errorf "copying file to tar" err)))
  ∧ (∀ err, execStream w = Some err → (streamImageToPod w path s).1 ≠ None).
Proof.
  split; [|split].
  - intros Hnil. apply streamImageToPod_success in Hnil as (_ & Hexec & Htar).
    split; [done|]. destruct (tarWriter w); try discriminate. eauto.
  - intros (Hopen & (size & Hstat) & Hnew) Hexec.
    destruct (streamImageToPod_session w path s size Hopen Hstat Hnew) as [-> _].
    rewrite Hexec. by split; intros err ->.
  - intros err Hexec Hnil.
    apply streamImageToPod_success in Hnil as (_ & Hexec' & _). congruence.
Qed.

Lemma push_needs_both_sides_witness :
  (streamImageToPod
     (withStream quietWorld None (TarCopyFailed (PathError "read error")))
     "./disk.qcow2" initState).1
  = Some (Errorf "copying file to tar" (PathError "read error"))
  ∧ (streamImageToPod
       (withStream quietWorld (Some (TransportError "connection reset"))
          (TarWritten 100))
       "./disk.qcow2" initState).1 ≠ None.
Proof.
  split.
  - apply (push_needs_both_sides
             (withStream quietWorld None (TarCopyFailed (PathError "read error")))
             "./disk.qcow2" initState);
      [repeat split; [exists 100; reflexivity] | reflexivity | reflexivity].
  - apply (push_needs_both_sides
             (withStream quietWorld (Some (TransportError "connection reset"))
                (TarWritten 100))
             "./disk.qcow2" initState) with (TransportError "connection reset").
    reflexivity.
Defined.

(** C9. When the exec session returns an error, [streamImageToPod] returns
    that error (wrapped as "streaming to pod") and never receives from
    [errChan], whatever the tar writer reported; whenever [errChan] is
    received from, the session had succeeded. *)
Theorem exec_error_takes_priority (w : World) (path : string) (s : State) :
  (∀ err, sessionStarts w path → execStream w = Some err →
     (streamImageToPod w path s).1 = Some (Errorf "streaming to pod" err)
     ∧ countEvents isRecvErrChan (emitted (streamImageToPod w path) s) = 0%nat)
  ∧ (countEvents isRecvErrChan (emitted (streamImageToPod w path) s) ≠ 0%nat →
     execStream w = None).
Proof.
  split.
  - intros err (Hopen & (size & Hstat) & Hnew) Hexec.
    destruct (streamImageToPod_session w path s size Hopen Hstat Hnew) as [-> ->].
    by rewrite Hexec.
  - unfold streamImageToPod, defer, bind, emit, ret. simpl.
    destruct (openFile w path); simpl.
    { erewrite emitted_app by reflexivity. done. }
    destruct (fileStat w path) as [size|]; simpl.
    2: { erewrite emitted_app by (simpl; by rewrite <- !app_assoc). done. }
    destruct (newExecutor w); simpl.
    { erewrite emitted_app by (simpl; by rewrite <- !app_assoc). done. }
    destruct (execStream w); simpl; [|done].
    erewrite emitted_app by (simpl; by rewrite <- !app_assoc). done.
Qed.

Lemma exec_error_takes_priority_witness :
  (streamImageToPod
     (withStream quietWorld (Some (TransportError "connection reset"))
        (TarHeaderFailed (PathError "closed pipe")))
     "./disk.qcow2" initState).1
  = Some (Errorf "streaming to pod" (TransportError "connection reset"))
  ∧ countEvents isRecvErrChan
      (emitted
         (streamImageToPod
            (withStream quietWorld (Some (TransportError "connection reset"))
               (TarHeaderFailed (PathError "closed pipe")))
            "./disk.qcow2") initState) = 0%nat.
Proof.
  apply (exec_error_takes_priority
           (withStream quietWorld (Some (TransportError "connection reset"))
              (TarHeaderFailed (PathError "closed pipe")))
           "./disk.qcow2" initState);
    [repeat split; [exists 100; reflexivity] | reflexivity].
Defined.

(** ** Cleanup of the ephemeral origin *)

Section EmitsOnly.

Context (P : Event -> Prop).

Lemma emitsOnly_ret {A} (a : A) : emitsOnly P (ret a).
Proof. intros s. exists []. by rewrite app_nil_r. Qed.

Lemma emitsOnly_emit (ev : Event) : P ev → emitsOnly P (emit ev).
Proof. intros Hev s. exists [ev]. split; [done|]. by constructor. Qed.

Lemma emitsOnly_bind {A B} (c : M A) (k : A -> M B) :
  emitsOnly P c → (∀ a, emitsOnly P (k a)) → emitsOnly P (bind c k).
Proof.
  intros Hc Hk s. unfold bind.
  destruct (Hc s) as (evs1 & Hlog1 & Hall1).
  destruct (c s) as [a s1]. simpl in Hlog1.
  destruct (Hk a s1) as (evs2 & Hlog2 & Hall2).
  exists (evs1 ++ evs2). split.
  - by rewrite Hlog2, Hlog1, app_assoc.
  - by apply Forall_app.
Qed.

Lemma emitsOnly_defer {A} (d : M unit) (rest : M A) :
  emitsOnly P d → emitsOnly P rest → emitsOnly P (defer d rest).
Proof.
  intros Hd Hrest. unfold defer.
  apply emitsOnly_bind; [done|]. intros a.
  apply emitsOnly_bind; [done|]. intros _. apply emitsOnly_ret.
Qed.

Lemma emitsOnly_pollLoop (ticks : nat) (condition : M (Result bool)) :
  emitsOnly P condition → emitsOnly P (pollLoop ticks condition).
Proof.
  intros Hc. induction ticks as [|ticks IH]; simpl.
  - apply emitsOnly_ret.
  - apply emitsOnly_bind; [done|].
    intros [[|]|err]; auto using emitsOnly_ret.
Qed.

Lemma emitsOnly_poll (ticks : nat) (immediate : bool)
  (condition : M (Result bool)) :
  emitsOnly P condition →
  emitsOnly P (PollUntilContextTimeout ticks immediate condition).
Proof.
  intros Hc. unfold PollUntilContextTimeout.
  destruct immediate; [|by apply emitsOnly_pollLoop].
  apply emitsOnly_bind; [done|].
  intros [[|]|err]; auto using emitsOnly_ret, emitsOnly_pollLoop.
Qed.

End EmitsOnly.

(** Decomposes a computation along its binds and case distinctions. *)
Ltac emits_only :=
  repeat first
    [ assumption
    | apply emitsOnly_ret
    | apply emitsOnly_emit; by repeat split
    | apply emitsOnly_poll
    | apply emitsOnly_defer
    | apply emitsOnly_bind; [|intros ?]
    | match goal with
      | |- emitsOnly _ (match ?x with _ => _ end) => destruct x
      end ].

Section Cleanup.

Variable w : World.
Variable u : GoldenImageUploader.

Lemma podReady_no_delete : emitsOnly notDelete (podReady w).
Proof.
  unfold podReady. apply emitsOnly_bind.
  - intros s. exists [EvGetPod]. split; [done|]. by repeat constructor.
  - intros [conditions|err]; apply emitsOnly_ret.
Qed.

Lemma dvDone_no_delete : emitsOnly notDelete (dvDone w).
Proof.
  unfold dvDone. apply emitsOnly_bind.
  { intros s. exists [EvGetDataVolume]. split; [done|]. by repeat constructor. }
  intros [dv|err]; [|apply emitsOnly_ret].
  destruct (asMap (dv !! "status")) as [status|]; [|apply emitsOnly_ret].
  apply emitsOnly_bind.
  { intros s. exists []. by rewrite app_nil_r. }
  intros last. apply emitsOnly_bind.
  - destruct (negb _); [|apply emitsOnly_ret].
    apply emitsOnly_bind; [apply emitsOnly_emit; by split|].
    intros _ s. exists []. by rewrite app_nil_r.
  - intros _. destruct (String.eqb _ DVPhaseFailed); apply emitsOnly_ret.
Qed.

Lemma createServerPod_no_delete : emitsOnly notDelete (createServerPod w).
Proof.
  pose proof podReady_no_delete.
  unfold createServerPod. emits_only.
Qed.

Lemma waitForDataVolume_no_delete : emitsOnly notDelete (waitForDataVolume w).
Proof.
  unfold waitForDataVolume. apply emitsOnly_bind.
  - intros s. exists []. by rewrite app_nil_r.
  - intros _. apply emitsOnly_poll, dvDone_no_delete.
Qed.

Lemma streamImageToPod_no_delete path :
  emitsOnly notDelete (streamImageToPod w path).
Proof. unfold streamImageToPod. emits_only. Qed.

End Cleanup.

Section CleanupOnce.

Lemma bind_run {A B} (c : M A) (k : A -> M B) (s : State) :
  bind c k s = k (c s).1 (c s).2.
Proof. unfold bind. by destruct (c s). Qed.

Lemma defer_result {A} (d : M unit) (rest : M A) (s : State) :
  (defer d rest s).1 = (rest s).1.
Proof.
  unfold defer. rewrite !bind_run. reflexivity.
Qed.

Lemma defer_state {A} (d : M unit) (rest : M A) (s : State) :
  (defer d rest s).2 = (d (rest s).2).2.
Proof.
  unfold defer. rewrite !bind_run. reflexivity.
Qed.

Lemma cleanup_log (w : World) (s : State) :
  log (cleanup w s).2 = log s ++ cleanupEvents w.
Proof.
  unfold cleanup, cleanupEvents, cleanupWarning, println, bind, emit, ret.
  simpl.
  destruct (deleteService w) as [err1|]; [destruct (IsNotFound err1)|];
    (destruct (deletePod w) as [err2|]; [destruct (IsNotFound err2)|]);
    simpl; by rewrite <- ?app_assoc.
Qed.

Lemma countEvents_app (p : Event -> bool) (l1 l2 : list Event) :
  countEvents p (l1 ++ l2) = (countEvents p l1 + countEvents p l2)%nat.
Proof. unfold countEvents. by rewrite List.filter_app, length_app. Qed.

Lemma countEvents_none (p : Event -> bool) (l : list Event) :
  Forall (fun ev => p ev = false) l → countEvents p l = 0%nat.
Proof.
  unfold countEvents. induction 1 as [|ev l Hev _ IH]; simpl; [done|].
  by rewrite Hev.
Qed.

Lemma cleanupEvents_once (w : World) :
  countEvents isDeleteService (cleanupEvents w) = 1%nat
  ∧ countEvents isDeletePod (cleanupEvents w) = 1%nat.
Proof.
  unfold cleanupEvents, cleanupWarning.
  destruct (deleteService w) as [err1|]; [destruct (IsNotFound err1)|];
    (destruct (deletePod w) as [err2|]; [destruct (IsNotFound err2)|]);
    by split.
Qed.

End CleanupOnce.

(** C1, as the code has it.  When the server pod has been created and is
    ready, [uploadViaHTTPSource] runs [cleanup] exactly once, as its last
    action, whichever later step fails or none; and in every run the
    returned error is the same whatever the two deletions answer, NotFound
    included. *)
Theorem cleanup_once_after_origin_start (w : World) (u : GoldenImageUploader)
  (path : string) (s : State) :
  ((createServerPod w (println "Creating ephemeral image server pod..." s).2).1
   = None →
   countEvents isDeleteService (emitted (uploadViaHTTPSource w u path) s) = 1%nat
   ∧ countEvents isDeletePod (emitted (uploadViaHTTPSource w u path) s) = 1%nat
   ∧ ∃ before, emitted (uploadViaHTTPSource w u path) s = before ++ cleanupEvents w
               ∧ Forall notDelete before)
  ∧ (∀ svc pod,
       (uploadViaHTTPSource (withDeletes w svc pod) u path s).1
       = (uploadViaHTTPSource w u path s).1).
Proof.
  split.
  - intros Hstarted.
    assert (∃ before,
              emitted (uploadViaHTTPSource w u path) s = before ++ cleanupEvents w
              ∧ Forall notDelete before) as (before & Hlog & Hbefore).
    { unfold uploadViaHTTPSource.
      match goal with |- context [defer (cleanup w) ?b] => set (steps := b) end.
      assert (Hsteps : emitsOnly notDelete steps).
      { subst steps. unfold println, createServerService, createDataVolume.
        pose proof (streamImageToPod_no_delete w path).
        pose proof (waitForDataVolume_no_delete w).
        emits_only. }
      set (s0 := (println "Creating ephemeral image server pod..." s).2) in *.
      destruct (createServerPod_no_delete w s0) as (evsPod & HlogPod & HallPod).
      destruct (Hsteps (createServerPod w s0).2) as (evsSteps & HlogSteps & HallSteps).
      exists ([EvPrint (OutLine "Creating ephemeral image server pod...")]
              ++ evsPod ++ evsSteps).
      split.
      - apply emitted_app.
        rewrite bind_run. cbv beta. rewrite bind_run. cbv beta.
        fold s0. rewrite Hstarted.
        rewrite defer_state, cleanup_log, HlogSteps, HlogPod.
        subst s0. simpl. by rewrite <- !app_assoc.
      - apply Forall_app. split; [by repeat constructor|].
        by apply Forall_app. }
    destruct (cleanupEvents_once w) as [Hsvc Hpod].
    rewrite Hlog, !countEvents_app, Hsvc, Hpod.
    rewrite !countEvents_none; [eauto| |].
    + eapply Forall_impl; [exact Hbefore|]. by intros ev [_ ?].
    + eapply Forall_impl; [exact Hbefore|]. by intros ev [? _].
  - intros svc pod. unfold uploadViaHTTPSource.
    repeat (rewrite bind_run; cbv beta).
    change (createServerPod (withDeletes w svc pod)) with (createServerPod w).
    destruct ((createServerPod w (println _ s).2).1); [done|].
    by rewrite !defer_result.
Qed.

Lemma cleanup_once_after_origin_start_witness :
  countEvents isDeleteService
    (emitted (uploadViaHTTPSource
                (withStream quietWorld (Some (TransportError "connection reset"))
                   (TarWritten 0))
                greenUploader "./disk.qcow2") initState) = 1%nat.
Proof.
  apply (cleanup_once_after_origin_start
           (withStream quietWorld (Some (TransportError "connection reset"))
              (TarWritten 0))
           greenUploader "./disk.qcow2" initState).
  reflexivity.
Defined.

(** C1, as the specification states it, fails: when the pod cannot be
    created the function returns before [cleanup] is deferred, and no
    deletion is issued. *)
Lemma cleanup_skipped_when_pod_creation_fails :
  uploadViaHTTPSource forbiddenWorld greenUploader "./disk.qcow2" initState
  = (Some (Errorf "creating server pod"
             (StatusError ReasonOther "pods is forbidden")),
     {| log := [EvPrint (OutLine "Creating ephemeral image server pod...");
                EvCreatePod];
        podGets := 0; dvGets := 0; lastPhase := "" |})
  ∧ countEvents isDeleteService
      (emitted (uploadViaHTTPSource forbiddenWorld greenUploader "./disk.qcow2")
         initState) = 0%nat
  ∧ countEvents isDeletePod
      (emitted (uploadViaHTTPSource forbiddenWorld greenUploader "./disk.qcow2")
         initState) = 0%nat.
Proof. by vm_compute. Qed.

(** The same early return when the pod exists but does not become ready:
    three polls, a deadline error, and the pod is left behind. *)
Example origin_not_ready_leaves_pod :
  uploadViaHTTPSource neverReadyWorld greenUploader "./disk.qcow2" initState
  = (Some (Errorf "creating server pod" DeadlineExceeded),
     {| log := [EvPrint (OutLine "Creating ephemeral image server pod...");
                EvCreatePod; EvGetPod; EvGetPod; EvGetPod];
        podGets := 3; dvGets := 0; lastPhase := "" |}).
Proof. by vm_compute. Qed.

(** ** Waiting for the import job *)

Section Waiting.

Variable w : World.

Lemma dvDone_step (s : State) :
  (dvDone w s).1 = conditionOf (verdict (getDV w (dvGets s)))
  ∧ dvGets (dvDone w s).2 = S (dvGets s).
Proof.
  unfold dvDone, nextDVGet, getLastPhase, setLastPhase, println, emit, bind, ret,
    verdict, observedPhase, observedConditions.
  destruct (getDV w (dvGets s)) as [dv|err]; simpl; [|done].
  destruct (dv !! "status") as [[| | | | |status]|]; simpl; try done.
  set (phase := default "" (asString (status !! "phase"))).
  assert (Hphase : match status !! "phase" with
                   | Some (VStr p) => p
                   | _ => ""
                   end = phase).
  { subst phase. by destruct (status !! "phase") as [[]|]. }
  rewrite Hphase. unfold DVPhaseFailed, DVPhaseSucceeded.
  assert (Hconds : default [] (asList (status !! "conditions"))
                   = match status !! "conditions" with
                     | Some (VList l) => l
                     | _ => []
                     end).
  { by destruct (status !! "conditions") as [[]|]. }
  rewrite Hconds.
  destruct (negb (String.eqb phase (lastPhase s))); simpl;
    destruct (String.eqb phase "Failed"); simpl; try done;
    by destruct (String.eqb phase "Succeeded").
Qed.

Lemma pollLoop_cases (polls : nat) (s : State) :
  let run := pollLoop polls (dvDone w) s in
  (quietBefore w s polls ∧ run.1 = Some DeadlineExceeded
   ∧ dvGets run.2 = (dvGets s + polls)%nat)
  ∨ (∃ i, (i < polls)%nat ∧ quietBefore w s i
          ∧ verdict (answerAt w s i) ≠ KeepPolling
          ∧ run.1 = outcomeOf (verdict (answerAt w s i))
          ∧ dvGets run.2 = (dvGets s + i + 1)%nat).
Proof.
  revert s. induction polls as [|polls IH]; intros s; simpl.
  - left. split; [intros j Hj; lia|]. split; [done|]. unfold ret. simpl. lia.
  - rewrite bind_run.
    destruct (dvDone_step s) as [Hcond Hgets]. rewrite Hcond.
    destruct (verdict (getDV w (dvGets s))) eqn:Hv; simpl.
    + (* the loop goes on from the next state *)
      specialize (IH (dvDone w s).2). simpl in IH.
      assert (Hshift : ∀ j, answerAt w (dvDone w s).2 j = answerAt w s (S j)).
      { intros j. unfold answerAt. rewrite Hgets. f_equal. lia. }
      destruct IH as [(Hq & Hr & Hg) | (i & Hi & Hq & Hv' & Hr & Hg)].
      * left. split; [|split; [done|lia]].
        intros [|j] Hj.
        -- unfold answerAt. by rewrite Nat.add_0_r.
        -- rewrite <- Hshift. apply Hq. lia.
      * right. exists (S i). rewrite <- Hshift.
        split; [lia|]. split; [|split; [done|split; [done|lia]]].
        intros [|j] Hj.
        -- unfold answerAt. by rewrite Nat.add_0_r.
        -- rewrite <- Hshift. apply Hq. lia.
    + right. exists 0%nat. unfold answerAt, quietBefore. rewrite Nat.add_0_r, Hv.
      split; [lia|]. split; [intros j Hj; lia|].
      split; [done|]. split; [done|]. unfold ret. simpl. lia.
    + right. exists 0%nat. unfold answerAt, quietBefore. rewrite Nat.add_0_r, Hv.
      split; [lia|]. split; [intros j Hj; lia|].
      split; [done|]. split; [done|]. unfold ret. simpl. lia.
    + right. exists 0%nat. unfold answerAt, quietBefore. rewrite Nat.add_0_r, Hv.
      split; [lia|]. split; [intros j Hj; lia|].
      split; [done|]. split; [done|]. unfold ret. simpl. lia.
Qed.

(** [waitForDataVolume] polls at once and then once per tick: it stops at
    the first answer that is a verdict, or at the deadline. *)
Lemma waitForDataVolume_cases (s : State) :
  let polls := S (dvTicks w) in
  (quietBefore w s polls ∧ (waitForDataVolume w s).1 = Some DeadlineExceeded
   ∧ fetches w s = polls)
  ∨ (∃ i, (i < polls)%nat ∧ quietBefore w s i
          ∧ verdict (answerAt w s i) ≠ KeepPolling
          ∧ (waitForDataVolume w s).1 = outcomeOf (verdict (answerAt w s i))
          ∧ fetches w s = S i).
Proof.
  unfold fetches, waitForDataVolume. rewrite bind_run. cbv beta.
  change (PollUntilContextTimeout (dvTicks w) true (dvDone w))
    with (pollLoop (S (dvTicks w)) (dvDone w)).
  set (s0 := (setLastPhase "" s).2).
  destruct (pollLoop_cases (S (dvTicks w)) s0)
    as [(Hq & Hr & Hg) | (i & Hi & Hq & Hv & Hr & Hg)].
  - left. split; [exact Hq|]. split; [exact Hr|]. rewrite Hg. simpl. lia.
  - right. exists i. split; [done|]. split; [exact Hq|].
    split; [exact Hv|]. split; [exact Hr|]. rewrite Hg. simpl. lia.
Qed.

End Waiting.

Section Verdicts.

Lemma verdict_absent dv :
  observedPhase dv = None → verdict (Ok dv) = KeepPolling.
Proof. unfold verdict. by intros ->. Qed.

Lemma verdict_succeeded dv :
  observedPhase dv = Some "Succeeded" → verdict (Ok dv) = ImportSucceeded.
Proof. unfold verdict. by intros ->. Qed.

Lemma verdict_failed dv :
  observedPhase dv = Some "Failed"
  → verdict (Ok dv) = ImportFailed (observedConditions dv).
Proof. unfold verdict. by intros ->. Qed.

Lemma verdict_other dv phase :
  observedPhase dv = Some phase → phase ≠ "Failed" → phase ≠ "Succeeded"
  → verdict (Ok dv) = KeepPolling.
Proof.
  unfold verdict. intros -> Hf Hs.
  apply String.eqb_neq in Hf, Hs. by rewrite Hf, Hs.
Qed.

Lemma verdict_succeeded_inv answer :
  verdict answer = ImportSucceeded
  → ∃ dv, answer = Ok dv ∧ observedPhase dv = Some "Succeeded".
Proof.
  unfold verdict. destruct answer as [dv|err]; [|done].
  destruct (observedPhase dv) as [phase|] eqn:Hphase; [|done].
  destruct (String.eqb phase "Failed"); [done|].
  destruct (String.eqb phase "Succeeded") eqn:Hs; [|done].
  apply String.eqb_eq in Hs as ->. eauto.
Qed.

(** While the answers keep the wait going, the next fetch happens unless
    the deadline has come. *)
Lemma keep_polling_continues (w : World) (s : State) (i : nat) :
  (i < fetches w s)%nat →
  verdict (getDV w (dvGets s + i)) = KeepPolling →
  ((i < dvTicks w)%nat → (S i < fetches w s)%nat)
  ∧ (i = dvTicks w → (waitForDataVolume w s).1 = Some DeadlineExceeded).
Proof.
  intros Hi Hv.
  destruct (waitForDataVolume_cases w s)
    as [(Hq & Hr & Hg) | (i0 & Hi0 & Hq & Hv0 & Hr & Hg)];
    unfold answerAt in *.
  - split; [lia|done].
  - assert (i ≠ i0) by congruence. split; lia.
Qed.

(** A fetch that happened and whose answer is a verdict was the last. *)
Lemma verdict_is_last (w : World) (s : State) (i : nat) :
  (i < fetches w s)%nat →
  verdict (getDV w (dvGets s + i)) ≠ KeepPolling →
  (waitForDataVolume w s).1 = outcomeOf (verdict (getDV w (dvGets s + i)))
  ∧ fetches w s = S i.
Proof.
  intros Hi Hv.
  destruct (waitForDataVolume_cases w s)
    as [(Hq & Hr & Hg) | (i0 & Hi0 & Hq & Hv0 & Hr & Hg)];
    unfold answerAt in *.
  - destruct Hv. apply Hq. lia.
  - destruct (decide (i = i0)) as [->|Hne]; [done|].
    destruct Hv. apply Hq. lia.
Qed.

End Verdicts.

(** C5. In a run of [waitForDataVolume]: a fetched job without status keeps
    the wait going; the wait returns nil exactly when some fetch saw phase
    "Succeeded"; a fetch that sees phase "Failed" is the last one and the
    wait returns an error carrying the job's raw condition list; any other
    phase keeps the wait going.  "Keeps going" means that the next fetch
    happens, or the deadline error is returned when no tick is left. *)
Theorem import_wait_phases (w : World) (s : State) :
  (∀ i dv, (i < fetches w s)%nat → getDV w (dvGets s + i) = Ok dv →
     observedPhase dv = None →
     ((i < dvTicks w)%nat → (S i < fetches w s)%nat)
     ∧ (i = dvTicks w → (waitForDataVolume w s).1 = Some DeadlineExceeded))
  ∧ ((waitForDataVolume w s).1 = None
     ↔ ∃ i dv, (i < fetches w s)%nat ∧ getDV w (dvGets s + i) = Ok dv
               ∧ observedPhase dv = Some "Succeeded")
  ∧ (∀ i dv, (i < fetches w s)%nat → getDV w (dvGets s + i) = Ok dv →
       observedPhase dv = Some "Failed" →
       (waitForDataVolume w s).1
       = Some (ErrorfV "DataVolume failed" (observedConditions dv))
       ∧ fetches w s = S i)
  ∧ (∀ i dv phase, (i < fetches w s)%nat → getDV w (dvGets s + i) = Ok dv →
       observedPhase dv = Some phase → phase ≠ "Failed" → phase ≠ "Succeeded" →
       ((i < dvTicks w)%nat → (S i < fetches w s)%nat)
       ∧ (i = dvTicks w → (waitForDataVolume w s).1 = Some DeadlineExceeded)).
Proof.
  split; [|split; [|split]].
  - intros i dv Hi Hdv Hphase. apply keep_polling_continues; [done|].
    rewrite Hdv. by apply verdict_absent.
  - split.
    + intros Hnil.
      destruct (waitForDataVolume_cases w s)
        as [(Hq & Hr & Hg) | (i0 & Hi0 & Hq & Hv0 & Hr & Hg)]; [congruence|].
      unfold answerAt in *. rewrite Hr in Hnil.
      destruct (verdict (getDV w (dvGets s + i0))) eqn:Hv; try done.
      apply verdict_succeeded_inv in Hv as (dv & Hdv & Hphase).
      exists i0, dv. split; [lia|done].
    + intros (i & dv & Hi & Hdv & Hphase).
      destruct (verdict_is_last w s i Hi) as [-> _];
        by rewrite Hdv, (verdict_succeeded dv Hphase).
  - intros i dv Hi Hdv Hphase.
    destruct (verdict_is_last w s i Hi) as [-> ->];
      by rewrite ?Hdv, ?(verdict_failed dv Hphase).
  - intros i dv phase Hi Hdv Hphase Hf Hs. apply keep_polling_continues; [done|].
    rewrite Hdv. by eapply verdict_other.
Qed.

Lemma import_wait_phases_witness :
  (1 < fetches (withDataVolume quietWorld failingJob 720) initState)%nat
  ∧ (3 < fetches (withDataVolume quietWorld failingJob 720) initState)%nat
  ∧ ((waitForDataVolume (withDataVolume quietWorld failingJob 720) initState).1
     = Some (ErrorfV "DataVolume failed" importFailedConditions)
     ∧ fetches (withDataVolume quietWorld failingJob 720) initState = 4%nat).
Proof.
  pose proof (import_wait_phases
                (withDataVolume quietWorld failingJob 720) initState)
    as (Habsent & _ & Hfailed & Hother).
  split; [|split].
  - apply (Habsent 0%nat {[ "metadata" := VMap ∅ ]});
      [vm_compute; lia | reflexivity | reflexivity | simpl; lia].
  - apply (Hother 2%nat (jobInPhase "ImportInProgress") "ImportInProgress");
      [vm_compute; lia | reflexivity | reflexivity | done | done | simpl; lia].
  - exact (Hfailed 3%nat
             {[ "status" :=
                  VMap (<[ "phase" := VStr "Failed" ]>
                        {[ "conditions" := VList importFailedConditions ]}) ]}
             ltac:(vm_compute; lia) eq_refl eq_refl).
Defined.

(** C10. In a run of [waitForDataVolume], a fetch of the job that fails,
    on whichever poll, is the last fetch: the wait returns that error
    (wrapped as "getting DataVolume") at once. *)
Theorem fetch_error_aborts_wait (w : World) (s : State) (i : nat) (err : error) :
  (i < fetches w s)%nat →
  getDV w (dvGets s + i) = Err err →
  (waitForDataVolume w s).1 = Some (Errorf "getting DataVolume" err)
  ∧ fetches w s = S i.
Proof.
  intros Hi Herr.
  destruct (verdict_is_last w s i Hi) as [Hr Hg].
  - by rewrite Herr.
  - by rewrite Hr, Hg, Herr.
Qed.

Lemma fetch_error_aborts_wait_witness :
  (waitForDataVolume (withDataVolume quietWorld flakyJob 720) initState).1
  = Some (Errorf "getting DataVolume"
            (StatusError ReasonOther "etcdserver: request timed out"))
  ∧ fetches (withDataVolume quietWorld flakyJob 720) initState = 2%nat.
Proof.
  apply (fetch_error_aborts_wait
           (withDataVolume quietWorld flakyJob 720) initState 1%nat);
    [vm_compute; lia | reflexivity].
Defined.

(** ** Set-based requirements *)

Section Requirements.

Import metav1.

Lemma LabelSelectorAsSelector_exprs (ps : LabelSelector) (sel : labels.Selector)
  (expr : LabelSelectorRequirement) :
  LabelSelectorAsSelector ps = Some sel →
  expr ∈ MatchExpressions ps →
  ∃ r, requirementOfExpr expr = Some r ∧ r ∈ sel.
Proof.
  unfold LabelSelectorAsSelector. intros Hsel Hin.
  destruct (Nat.eqb _ 0) eqn:Hempty.
  - apply Nat.eqb_eq in Hempty.
    destruct (MatchExpressions ps); [by apply elem_of_nil in Hin|].
    simpl in Hempty. lia.
  - destruct (mapM _ (map_to_list (MatchLabels ps))) as [eqs|]; [|done].
    destruct (mapM requirementOfExpr (MatchExpressions ps)) as [rs|] eqn:Hrs;
      [|done].
    simpl in Hsel. injection Hsel as <-.
    apply mapM_Some in Hrs.
    apply list_elem_of_lookup in Hin as [i Hi].
    destruct (Forall2_lookup_l _ _ _ _ _ Hrs Hi) as (r & Hr & Hreq).
    exists r. split; [done|].
    apply elem_of_app. right. apply list_elem_of_lookup. eauto.
Qed.

Lemma parseRequirement_in (nsSelector : gmap string Value)
  (exprs : list Value) (exprMap : gmap string Value) :
  nsSelector !! "matchExpressions" = Some (VList exprs) →
  VMap exprMap ∈ exprs →
  parseRequirement exprMap ∈ parseMatchExpressions nsSelector.
Proof.
  intros Hexprs Hin. unfold parseMatchExpressions. rewrite Hexprs. simpl.
  apply list_elem_of_omap. exists (VMap exprMap). by split.
Qed.

Lemma requirementOfExpr_presence (expr : LabelSelectorRequirement)
  (r : labels.Requirement) :
  Operator expr = "Exists" ∨ Operator expr = "DoesNotExist" →
  requirementOfExpr expr = Some r →
  Values expr = [] ∧ labels.key r = Key expr ∧ labels.strValues r = []
  ∧ (Operator expr = "Exists" → labels.operator r = labels.OpExists)
  ∧ (Operator expr = "DoesNotExist" → labels.operator r = labels.OpDoesNotExist).
Proof.
  unfold requirementOfExpr, labels.NewRequirement.
  intros [Hop | Hop]; rewrite Hop; simpl;
    destruct (Values expr) as [|v vals]; simpl;
    rewrite ?andb_false_r; try done;
    destruct (validation.IsQualifiedName (Key expr)); simpl; try done;
    intros [= <-]; simpl; by repeat split.
Qed.

End Requirements.

(** C3, as the code has it.  For a selector with an Exists or DoesNotExist
    requirement: if the requirement carries a string value the selector is
    rejected and nothing matches; if the selector matches, the requirement
    carries no string value and its key is present (Exists) or absent
    (DoesNotExist); and a selector that consists of one such requirement,
    with a valid key and no string value, matches exactly when the key is
    present (respectively absent). *)
Theorem presence_requirement_semantics
  (spec nsSelector exprMap : gmap string Value) (exprs : list Value)
  (nsLabels : gmap string string) :
  spec !! "namespaceSelector" = Some (VMap nsSelector) →
  nsSelector !! "matchExpressions" = Some (VList exprs) →
  VMap exprMap ∈ exprs →
  metav1.Operator (parseRequirement exprMap) = "Exists"
  ∨ metav1.Operator (parseRequirement exprMap) = "DoesNotExist" →
  (metav1.Values (parseRequirement exprMap) ≠ [] →
   selectorMatchesNamespace spec nsLabels = false)
  ∧ (selectorMatchesNamespace spec nsLabels = true →
     metav1.Values (parseRequirement exprMap) = []
     ∧ (metav1.Operator (parseRequirement exprMap) = "Exists" →
        is_Some (nsLabels !! metav1.Key (parseRequirement exprMap)))
     ∧ (metav1.Operator (parseRequirement exprMap) = "DoesNotExist" →
        nsLabels !! metav1.Key (parseRequirement exprMap) = None))
  ∧ (exprs = [VMap exprMap] → nsSelector !! "matchLabels" = None →
     metav1.Values (parseRequirement exprMap) = [] →
     validation.IsQualifiedName (metav1.Key (parseRequirement exprMap)) = true →
     selectorMatchesNamespace spec nsLabels
     = if String.eqb (metav1.Operator (parseRequirement exprMap)) "Exists"
       then bool_decide (is_Some (nsLabels !! metav1.Key (parseRequirement exprMap)))
       else negb (bool_decide
                    (is_Some (nsLabels !! metav1.Key (parseRequirement exprMap))))).
Proof.
  intros Hspec Hexprs Hin Hop.
  remember (parseRequirement exprMap) as req eqn:Hreqdef.
  assert (Hreq : req ∈ parseMatchExpressions nsSelector)
    by (subst req; by apply parseRequirement_in with exprs).
  assert (Hmatch : selectorMatchesNamespace spec nsLabels = true →
     metav1.Values req = []
     ∧ (metav1.Operator req = "Exists" → is_Some (nsLabels !! metav1.Key req))
     ∧ (metav1.Operator req = "DoesNotExist" → nsLabels !! metav1.Key req = None)).
  { unfold selectorMatchesNamespace. rewrite Hspec. simpl.
    destruct (metav1.LabelSelectorAsSelector _) as [sel|] eqn:Hsel; [|done].
    intros Hall.
    destruct (LabelSelectorAsSelector_exprs _ sel req Hsel Hreq) as (r & Hr & Hrin).
    destruct (requirementOfExpr_presence req r Hop Hr)
      as (Hvals & Hkey & _ & Hex & Hnex).
    unfold labels.SelectorMatches in Hall.
    rewrite forallb_forall in Hall.
    apply list_elem_of_In, Hall in Hrin. unfold labels.Matches in Hrin.
    rewrite Hkey in Hrin.
    split; [done|]. split; intros Hop'.
    - rewrite (Hex Hop') in Hrin. by apply bool_decide_eq_true in Hrin.
    - rewrite (Hnex Hop') in Hrin. apply negb_true_iff in Hrin.
      apply bool_decide_eq_false in Hrin. by apply eq_None_not_Some. }
  split; [|split; [exact Hmatch|]].
  - intros Hvals. apply not_true_is_false. intros Htrue.
    by destruct (Hmatch Htrue) as [? _].
  - intros -> Hlabels Hvals Hkey.
    assert (Hparsed : parseMatchExpressions nsSelector = [req]).
    { unfold parseMatchExpressions. rewrite Hexprs, Hreqdef. reflexivity. }
    assert (Hnone : parseMatchLabels nsSelector = ∅).
    { unfold parseMatchLabels. by rewrite Hlabels. }
    unfold selectorMatchesNamespace. rewrite Hspec. simpl.
    unfold metav1.LabelSelectorAsSelector. rewrite Hparsed, Hnone. simpl.
    rewrite map_size_empty, map_to_list_empty. simpl.
    unfold metav1.requirementOfExpr, labels.NewRequirement.
    destruct Hop as [Hop | Hop]; rewrite Hop, Hkey, Hvals; simpl;
      unfold labels.Matches; simpl; by rewrite andb_true_r.
Qed.

Lemma presence_requirement_semantics_witness :
  selectorMatchesNamespace
    (specSelecting [requirementOn "Exists" (Some (VList [VStr "prod"]))])
    {[ "env" := "prod" ]} = false
  ∧ selectorMatchesNamespace
      (specSelecting [requirementOn "DoesNotExist" (Some (VList [VNum 3]))])
      {[ "tier" := "web" ]} = true.
Proof.
  split.
  - apply (presence_requirement_semantics
             (specSelecting [requirementOn "Exists" (Some (VList [VStr "prod"]))])
             {[ "matchExpressions" :=
                  VList [requirementOn "Exists" (Some (VList [VStr "prod"]))] ]}
             (<[ "key" := VStr "env" ]>
              (<[ "operator" := VStr "Exists" ]>
               {[ "values" := VList [VStr "prod"] ]}))
             [requirementOn "Exists" (Some (VList [VStr "prod"]))]);
      [reflexivity | reflexivity | apply list_elem_of_here
      | left; reflexivity | by vm_compute].
  - pose proof (presence_requirement_semantics
             (specSelecting [requirementOn "DoesNotExist" (Some (VList [VNum 3]))])
             {[ "matchExpressions" :=
                  VList [requirementOn "DoesNotExist" (Some (VList [VNum 3]))] ]}
             (<[ "key" := VStr "env" ]>
              (<[ "operator" := VStr "DoesNotExist" ]>
               {[ "values" := VList [VNum 3] ]}))
             [requirementOn "DoesNotExist" (Some (VList [VNum 3]))]
             {[ "tier" := "web" ]}
             eq_refl eq_refl (list_elem_of_here _ _) (or_intror eq_refl))
      as (_ & _ & Hsingle).
    exact (Hsingle eq_refl eq_refl eq_refl eq_refl).
Defined.

(** C3, as the specification states it, fails: an Exists requirement with
    a value list on a present key makes the selector invalid, and the
    matcher answers false; without the values it answers true. *)
Lemma exists_with_values_is_rejected :
  selectorMatchesNamespace
    (specSelecting [requirementOn "Exists" (Some (VList [VStr "prod"]))])
    {[ "env" := "prod" ]} = false
  ∧ metav1.LabelSelectorAsSelector
      {| metav1.MatchLabels := ∅;
         metav1.MatchExpressions :=
           [ {| metav1.Key := "env"; metav1.Operator := "Exists";
                metav1.Values := ["prod"] |} ] |} = None
  ∧ selectorMatchesNamespace
      (specSelecting [requirementOn "Exists" None]) {[ "env" := "prod" ]} = true.
Proof. by vm_compute. Qed.

(** ** Size recommendation *)

Lemma const_1_2_correctly_rounded :
  float64.const_1_2 = float64.div (float64.ofInt 12) (float64.ofInt 10).
Proof. by vm_compute. Qed.

(** C2 at a file of 2684354560 bytes (2.5 GiB), whose size times 1.2 is
    exactly 3 GiB: the product is computed without rounding error, and
    [GetPVCSize] answers "4Gi", one more than the exact multiple. *)
Theorem GetPVCSize_exact_multiple :
  2684354560 * 12 = 10 * (3 * 2 ^ 30)
  ∧ float64.mul (float64.ofInt 2684354560) float64.const_1_2
    = float64.ofInt (3 * 2 ^ 30)
  ∧ GetPVCSize (withStat quietWorld (fun _ => Ok 2684354560)) "./disk.qcow2"
    = Ok "4Gi".
Proof. by vm_compute. Qed.

(** Off the exact multiples the answer is the rounded-up one. *)
Example GetPVCSize_fedora_image :
  GetPVCSize (withStat quietWorld (fun _ => Ok 583335936)) "./disk.qcow2"
  = Ok "1Gi".
Proof. by vm_compute. Qed.

(** * Further properties of the code *)

(** ** Detection *)

(** X1. A missing resource type (a NotFound answer to either list call)
    is handled exactly like an empty list of definitions. *)
Theorem missing_crd_is_empty_list (w : World) (u : GoldenImageUploader)
  (s : State) (err : error) (other : Result (list (gmap string Value))) :
  IsNotFound err = true →
  namespaceHasPrimaryUDN (withLists w (Err err) other) u s
  = namespaceHasPrimaryUDN (withLists w (Ok []) other) u s
  ∧ namespaceHasPrimaryUDN (withLists w other (Err err)) u s
    = namespaceHasPrimaryUDN (withLists w other (Ok [])) u s.
Proof.
  intros Hnf.
  unfold namespaceHasPrimaryUDN, checkNamespaceScopedUDN, bind, emit, ret.
  simpl. rewrite Hnf.
  destruct (getNamespace w (namespace u)) as [nsLabels|]; [|done].
  destruct (nsLabels !! udnLabel); [|done].
  split; [done|].
  destruct other as [items|err']; [|by destruct (IsNotFound err')].
  by destruct (cudnLoop nsLabels items).
Qed.

Lemma missing_crd_is_empty_list_witness :
  namespaceHasPrimaryUDN
    (withLists (worldWithLabels prodLabels)
       (Err (StatusError ReasonNotFound "the server could not find the requested resource"))
       (Ok [udnWithRole (VStr "Primary")]))
    greenUploader initState
  = namespaceHasPrimaryUDN
      (withLists (worldWithLabels prodLabels) (Ok [])
         (Ok [udnWithRole (VStr "Primary")]))
      greenUploader initState.
Proof.
  apply (missing_crd_is_empty_list (worldWithLabels prodLabels) greenUploader
           initState
           (StatusError ReasonNotFound "the server could not find the requested resource")).
  reflexivity.
Defined.

(** X2. As soon as one cluster-scoped Primary definition selects the
    namespace, the detector answers true after two calls: the
    namespace-scoped definitions are not listed, whatever that call would
    have answered. *)
Theorem cluster_match_short_circuits (w : World) (u : GoldenImageUploader)
  (s : State) (nsLabels : gmap string string) :
  getNamespace w (namespace u) = Ok nsLabels →
  is_Some (nsLabels !! udnLabel) →
  clusterMatch w nsLabels →
  (namespaceHasPrimaryUDN w u s).1 = Ok true
  ∧ emitted (namespaceHasPrimaryUDN w u) s = [EvGetNamespace; EvListCUDN].
Proof.
  intros Hns [marker Hmarker] (items & d & Hlist & Hin & Hprim & Hsel).
  assert (Hloop : cudnLoop nsLabels items = true)
    by (apply cudnLoop_exists; eauto).
  unfold namespaceHasPrimaryUDN, bind, emit, ret. simpl.
  rewrite Hns, Hmarker, Hlist, Hloop. simpl. split; [done|].
  apply emitted_app. simpl. by rewrite <- app_assoc.
Qed.

Lemma cluster_match_short_circuits_witness :
  (namespaceHasPrimaryUDN
     (withLists (worldWithLabels prodLabels)
        (Ok [cudnWithSelector selectEnvDev; cudnWithSelector selectEnvProd])
        (Err (StatusError ReasonOther "forbidden")))
     greenUploader initState).1 = Ok true.
Proof.
  apply (cluster_match_short_circuits
           (withLists (worldWithLabels prodLabels)
              (Ok [cudnWithSelector selectEnvDev; cudnWithSelector selectEnvProd])
              (Err (StatusError ReasonOther "forbidden")))
           greenUploader initState prodLabels).
  - reflexivity.
  - exists "". reflexivity.
  - exists [cudnWithSelector selectEnvDev; cudnWithSelector selectEnvProd],
      (cudnWithSelector selectEnvProd).
    split; [reflexivity|]. split; [by repeat constructor|]. split.
    + exists ["network"; "layer3"; "role"].
      split; [by repeat constructor | reflexivity].
    + eexists. split; [reflexivity | by vm_compute].
Defined.

Lemma checkNamespaceScopedUDN_true (w : World) (u : GoldenImageUploader)
  (nsLabels : gmap string string) (s : State) :
  (checkNamespaceScopedUDN w u nsLabels s).1 = Ok true ↔ namespaceMatch w u.
Proof.
  unfold namespaceMatch, checkNamespaceScopedUDN, bind, emit, ret. simpl.
  destruct (listUDN w (namespace u)) as [items|err]; simpl.
  - split.
    + intros [= Hloop]. apply udnLoop_exists in Hloop as (d & Hin & Hd). eauto.
    + intros (items' & d & [= <-] & Hin & Hd).
      f_equal. apply udnLoop_exists. eauto.
  - split; [by destruct (IsNotFound err)|]. by intros (? & ? & ? & _).
Qed.

(** X3. The detector answers true exactly when the namespace carries the
    marker label and either a cluster-scoped Primary definition selects it,
    or the cluster-scoped list was usable (obtained, or its type missing)
    and a namespace-scoped definition is Primary. *)
Theorem detection_true_iff (w : World) (u : GoldenImageUploader) (s : State) :
  (namespaceHasPrimaryUDN w u s).1 = Ok true
  ↔ ∃ nsLabels,
      getNamespace w (namespace u) = Ok nsLabels
      ∧ is_Some (nsLabels !! udnLabel)
      ∧ (clusterMatch w nsLabels
         ∨ (clusterListUsable w ∧ namespaceMatch w u)).
Proof.
  unfold clusterMatch, clusterListUsable.
  unfold namespaceHasPrimaryUDN. rewrite bind_run. cbv beta.
  destruct (getNamespace w (namespace u)) as [nsLabels|err] eqn:Hns.
  2: { split; [done|]. by intros (? & ? & _). }
  destruct (nsLabels !! udnLabel) as [marker|] eqn:Hmarker.
  2: { split; [done|]. intros (l & [= <-] & [? Hsome] & _). congruence. }
  rewrite bind_run. cbv beta.
  destruct (listCUDN w) as [items|err] eqn:Hlist.
  - destruct (cudnLoop nsLabels items) eqn:Hloop.
    + split; [intros _|done]. exists nsLabels. split; [done|]. split; [eauto|].
      left. apply cudnLoop_exists in Hloop as (d & Hin & Hd & Hsel).
      exists items, d. eauto.
    + rewrite checkNamespaceScopedUDN_true. split.
      * intros Hmatch. exists nsLabels. split; [done|]. split; [eauto|]. eauto.
      * intros (l & [= <-] & _ & [(items' & d & [= <-] & Hin & Hd & Hsel) | [_ Hm]]);
          [|done].
        assert (cudnLoop nsLabels items = true)
          by (apply cudnLoop_exists; eauto).
        congruence.
  - destruct (IsNotFound err) eqn:Hnf.
    + rewrite checkNamespaceScopedUDN_true. split.
      * intros Hmatch. exists nsLabels. split; [done|]. split; [eauto|].
        right. split; [right; eauto | done].
      * by intros (l & [= <-] & _ & [(? & ? & ? & _) | [_ Hm]]).
    + split; [done|].
      intros (l & [= <-] & _ & [(? & ? & ? & _) | [[(? & ?) | (e & [= <-] & ?)] _]]);
        congruence.
Qed.

(** X4. The detector makes at most three calls, each at most once and in
    a fixed order (namespace, cluster-scoped list, namespace-scoped list),
    and nothing else. *)
Theorem detection_calls_in_order (w : World) (u : GoldenImageUploader) (s : State) :
  emitted (namespaceHasPrimaryUDN w u) s
    `prefix_of` [EvGetNamespace; EvListCUDN; EvListUDN]
  ∧ podGets (namespaceHasPrimaryUDN w u s).2 = podGets s
  ∧ dvGets (namespaceHasPrimaryUDN w u s).2 = dvGets s.
Proof.
  unfold namespaceHasPrimaryUDN, checkNamespaceScopedUDN, bind, emit, ret.
  simpl.
  assert (H1 : [EvGetNamespace] `prefix_of` [EvGetNamespace; EvListCUDN; EvListUDN])
    by (by exists [EvListCUDN; EvListUDN]).
  assert (H2 : [EvGetNamespace; EvListCUDN]
               `prefix_of` [EvGetNamespace; EvListCUDN; EvListUDN])
    by (by exists [EvListUDN]).
  destruct (getNamespace w (namespace u)) as [nsLabels|]; simpl.
  2: { by erewrite emitted_app by reflexivity. }
  destruct (nsLabels !! udnLabel); simpl.
  2: { by erewrite emitted_app by reflexivity. }
  destruct (listCUDN w) as [items|err]; simpl.
  - destruct (cudnLoop nsLabels items); simpl.
    { by erewrite emitted_app by (simpl; by rewrite <- !app_assoc). }
    destruct (listUDN w (namespace u)) as [|err]; [|destruct (IsNotFound err)];
      simpl; by erewrite emitted_app by (simpl; by rewrite <- !app_assoc).
  - destruct (IsNotFound err); simpl.
    2: { by erewrite emitted_app by (simpl; by rewrite <- !app_assoc). }
    destruct (listUDN w (namespace u)) as [|err']; [|destruct (IsNotFound err')];
      simpl; by erewrite emitted_app by (simpl; by rewrite <- !app_assoc).
Qed.

(** ** The selector matcher *)

Section SelectorConjunction.

Import metav1.

Lemma LabelSelectorAsSelector_unfold (ps : LabelSelector) :
  LabelSelectorAsSelector ps
  = (eqs ← mapM (fun kv : string * string =>
                   labels.NewRequirement kv.1 labels.OpEquals [kv.2])
                (map_to_list (MatchLabels ps));
     exprs ← mapM requirementOfExpr (MatchExpressions ps);
     Some (eqs ++ exprs)).
Proof.
  unfold LabelSelectorAsSelector.
  destruct (Nat.eqb _ 0) eqn:Hempty; [|done].
  apply Nat.eqb_eq in Hempty.
  assert (Hsize : size (MatchLabels ps) = 0%nat) by lia.
  apply map_size_empty_iff in Hsize. rewrite Hsize, map_to_list_empty.
  destruct (MatchExpressions ps); [done|]. simpl in Hempty. lia.
Qed.

Lemma NewRequirement_equals (k v : string) (r : labels.Requirement)
  (nsLabels : gmap string string) :
  labels.NewRequirement k labels.OpEquals [v] = Some r →
  validation.IsQualifiedName k = true
  ∧ validation.IsValidLabelValue v = true
  ∧ (labels.Matches r nsLabels = true ↔ nsLabels !! k = Some v).
Proof.
  unfold labels.NewRequirement. simpl.
  destruct (validation.IsQualifiedName k); simpl; [|done].
  destruct (validation.IsValidLabelValue v); simpl; [|done].
  intros [= <-]. split; [done|]. split; [done|].
  unfold labels.Matches, labels.hasValue. simpl.
  destruct (nsLabels !! k) as [v'|]; [|done].
  rewrite orb_false_r, String.eqb_eq. split; congruence.
Qed.

Lemma selector_conjunction (ps : LabelSelector) (nsLabels : gmap string string) :
  (∃ sel, LabelSelectorAsSelector ps = Some sel
          ∧ labels.SelectorMatches sel nsLabels = true)
  ↔ (∀ k v, MatchLabels ps !! k = Some v → equalityHolds k v nsLabels)
    ∧ (∀ expr, expr ∈ MatchExpressions ps → requirementHolds expr nsLabels).
Proof.
  rewrite LabelSelectorAsSelector_unfold. unfold labels.SelectorMatches.
  split.
  - intros (sel & Hsel & Hall).
    destruct (mapM _ (map_to_list _)) as [eqs|] eqn:Heqs; [|done].
    destruct (mapM requirementOfExpr _) as [exprs|] eqn:Hexprs; [|done].
    simpl in Hsel. injection Hsel as <-.
    apply mapM_Some in Heqs, Hexprs.
    rewrite forallb_app in Hall. apply andb_true_iff in Hall as [Hall1 Hall2].
    rewrite forallb_forall in Hall1, Hall2.
    split.
    + intros k v Hkv. apply elem_of_map_to_list, list_elem_of_lookup in Hkv as [i Hi].
      destruct (Forall2_lookup_l _ _ _ _ _ Heqs Hi) as (r & Hr & Hnew).
      simpl in Hnew.
      destruct (NewRequirement_equals k v r nsLabels Hnew) as (Hk & Hv & Hm).
      split; [done|]. split; [done|]. apply Hm, Hall1, list_elem_of_In.
      apply list_elem_of_lookup. eauto.
    + intros expr Hin. apply list_elem_of_lookup in Hin as [i Hi].
      destruct (Forall2_lookup_l _ _ _ _ _ Hexprs Hi) as (r & Hr & Hreq).
      exists r. split; [done|]. apply Hall2, list_elem_of_In.
      apply list_elem_of_lookup. eauto.
  - intros [Heq Hreq].
    assert (is_Some (mapM (fun kv : string * string =>
                             labels.NewRequirement kv.1 labels.OpEquals [kv.2])
                          (map_to_list (MatchLabels ps)))) as [eqs Heqs].
    { apply mapM_is_Some, Forall_forall. intros [k v] Hkv.
      apply elem_of_map_to_list in Hkv.
      destruct (Heq k v Hkv) as (Hk & Hv & _).
      unfold compose, labels.NewRequirement. simpl. rewrite Hk, Hv. simpl. eauto. }
    assert (is_Some (mapM requirementOfExpr (MatchExpressions ps)))
      as [exprs Hexprs].
    { apply mapM_is_Some, Forall_forall. intros expr Hin.
      destruct (Hreq expr Hin) as (r & Hr & _). unfold compose. eauto. }
    rewrite Heqs, Hexprs. simpl. eexists. split; [done|].
    apply mapM_Some in Heqs, Hexprs.
    rewrite forallb_app. apply andb_true_iff.
    split; apply forallb_forall; intros r Hr; apply list_elem_of_In in Hr;
      apply list_elem_of_lookup in Hr as [i Hi].
    + destruct (Forall2_lookup_r _ _ _ _ _ Heqs Hi) as ([k v] & Hkv & Hnew).
      simpl in Hnew.
      destruct (NewRequirement_equals k v r nsLabels Hnew) as (_ & _ & Hm).
      apply Hm, Heq, elem_of_map_to_list, list_elem_of_lookup. eauto.
    + destruct (Forall2_lookup_r _ _ _ _ _ Hexprs Hi) as (expr & Hexpr & Hnew).
      destruct (Hreq expr) as (r' & Hr' & Hm); [apply list_elem_of_lookup; eauto|].
      congruence.
Qed.

Lemma selectorMatchesNamespace_conjunction (spec : gmap string Value)
  (nsLabels : gmap string string) :
  selectorMatchesNamespace spec nsLabels = true
  ↔ ∃ nsSelector,
      spec !! "namespaceSelector" = Some (VMap nsSelector)
      ∧ (∀ k v, parseMatchLabels nsSelector !! k = Some v →
                equalityHolds k v nsLabels)
      ∧ (∀ expr, expr ∈ parseMatchExpressions nsSelector →
                 requirementHolds expr nsLabels).
Proof.
  unfold selectorMatchesNamespace.
  destruct (spec !! "namespaceSelector") as [[| | | | |nsSelector]|] eqn:Hspec;
    simpl; try (split; [done | by intros (? & ? & _)]).
  pose proof (selector_conjunction
                {| MatchLabels := parseMatchLabels nsSelector;
                   MatchExpressions := parseMatchExpressions nsSelector |}
                nsLabels) as Hconj. simpl in Hconj.
  split.
  - intros Hm. exists nsSelector. split; [done|]. apply Hconj.
    destruct (LabelSelectorAsSelector _) as [sel|]; [eauto|done].
  - intros (nsSelector' & [= <-] & Hall).
    apply Hconj in Hall as (sel & -> & Hm). done.
Qed.

End SelectorConjunction.

(** X5. The matcher is a conjunction: it answers true exactly when the
    definition has a [namespaceSelector] map, every string-valued entry of
    its [matchLabels] is a well-formed equality that holds of the labels,
    and every map entry of its [matchExpressions] is accepted as a
    requirement that holds of the labels. *)
Theorem selector_matches_iff_all_constraints (spec : gmap string Value)
  (nsLabels : gmap string string) :
  selectorMatchesNamespace spec nsLabels = true
  ↔ ∃ nsSelector,
      spec !! "namespaceSelector" = Some (VMap nsSelector)
      ∧ (∀ k v, parseMatchLabels nsSelector !! k = Some v →
                equalityHolds k v nsLabels)
      ∧ (∀ expr, expr ∈ parseMatchExpressions nsSelector →
                 requirementHolds expr nsLabels).
Proof. apply selectorMatchesNamespace_conjunction. Qed.

Section SetRequirements.

Import metav1.

Lemma hasValue_elem_of (r : labels.Requirement) (v : string) :
  labels.hasValue r v = true ↔ v ∈ labels.strValues r.
Proof.
  unfold labels.hasValue. rewrite existsb_exists. split.
  - intros (v' & Hin & Heq). apply String.eqb_eq in Heq as ->.
    by apply list_elem_of_In.
  - intros Hin. exists v. split; [by apply list_elem_of_In|].
    by apply String.eqb_eq.
Qed.

Lemma requirementOfExpr_fields (expr : LabelSelectorRequirement)
  (r : labels.Requirement) :
  requirementOfExpr expr = Some r →
  labels.key r = Key expr ∧ labels.strValues r = Values expr
  ∧ operatorOf (Operator expr) = Some (labels.operator r)
  ∧ match labels.operator r with
    | labels.OpIn | labels.OpNotIn => Values expr ≠ []
    | _ => True
    end.
Proof.
  unfold requirementOfExpr, labels.NewRequirement.
  destruct (operatorOf (Operator expr)) as [op|]; [|done].
  destruct (_ && _ && _) eqn:Hok; [|done]. intros [= <-]. simpl.
  repeat split; try done.
  apply andb_true_iff in Hok as [Hok _]. apply andb_true_iff in Hok as [_ Hok].
  destruct op; try done; by destruct (Values expr).
Qed.

End SetRequirements.

(** X6. For a selector with an In or NotIn requirement: when the selector
    matches, the requirement lists at least one string value, and the key
    is present with a listed value (In), respectively absent or present
    with a value that is not listed (NotIn). *)
Theorem set_requirement_semantics
  (spec nsSelector : gmap string Value) (nsLabels : gmap string string)
  (expr : metav1.LabelSelectorRequirement) :
  spec !! "namespaceSelector" = Some (VMap nsSelector) →
  expr ∈ parseMatchExpressions nsSelector →
  selectorMatchesNamespace spec nsLabels = true →
  (metav1.Operator expr = "In" →
   metav1.Values expr ≠ []
   ∧ ∃ v, nsLabels !! metav1.Key expr = Some v ∧ v ∈ metav1.Values expr)
  ∧ (metav1.Operator expr = "NotIn" →
     metav1.Values expr ≠ []
     ∧ ∀ v, nsLabels !! metav1.Key expr = Some v → v ∉ metav1.Values expr).
Proof.
  intros Hspec Hin Hm.
  apply selectorMatchesNamespace_conjunction in Hm
    as (nsSelector' & Hspec' & _ & Hreqs).
  assert (nsSelector' = nsSelector) as -> by congruence.
  destruct (Hreqs expr Hin) as (r & Hr & Hmatch).
  destruct (requirementOfExpr_fields expr r Hr) as (Hkey & Hvals & Hop & Hne).
  unfold labels.Matches in Hmatch. rewrite Hkey in Hmatch.
  split; intros Hexpr; rewrite Hexpr in Hop; simpl in Hop;
    injection Hop as Hop; rewrite <- Hop in Hmatch, Hne.
  - split; [done|].
    destruct (nsLabels !! metav1.Key expr) as [v|]; [|done].
    exists v. split; [done|]. rewrite <- Hvals. by apply hasValue_elem_of.
  - split; [done|]. intros v Hv. rewrite Hv in Hmatch.
    apply negb_true_iff in Hmatch. rewrite <- Hvals.
    intros Hin'. apply hasValue_elem_of in Hin'. congruence.
Qed.

Lemma set_requirement_semantics_witness :
  ∃ v, ({[ "env" := "prod" ]} : gmap string string) !! "env" = Some v
       ∧ v ∈ ["prod"; "dev"].
Proof.
  apply (set_requirement_semantics
           (specSelecting
              [requirementOn "In" (Some (VList [VStr "prod"; VStr "dev"]))])
           {[ "matchExpressions" :=
                VList [requirementOn "In" (Some (VList [VStr "prod"; VStr "dev"]))] ]}
           {[ "env" := "prod" ]}
           {| metav1.Key := "env"; metav1.Operator := "In";
              metav1.Values := ["prod"; "dev"] |});
    [reflexivity | by vm_compute; repeat constructor | by vm_compute | reflexivity].
Defined.

(** X7. An expression whose operator is none of In, NotIn, Exists and
    DoesNotExist (a missing operator included) makes the matcher answer
    false for every label map. *)
Theorem unknown_operator_never_matches
  (spec nsSelector exprMap : gmap string Value) (exprs : list Value)
  (nsLabels : gmap string string) :
  spec !! "namespaceSelector" = Some (VMap nsSelector) →
  nsSelector !! "matchExpressions" = Some (VList exprs) →
  VMap exprMap ∈ exprs →
  (∀ op, exprMap !! "operator" = Some (VStr op) →
         op ≠ "In" ∧ op ≠ "NotIn" ∧ op ≠ "Exists" ∧ op ≠ "DoesNotExist") →
  selectorMatchesNamespace spec nsLabels = false.
Proof.
  intros Hspec Hexprs Hin Hop.
  apply not_true_is_false. intros Hm.
  apply selectorMatchesNamespace_conjunction in Hm
    as (nsSelector' & Hspec' & _ & Hreqs).
  assert (nsSelector' = nsSelector) as -> by congruence.
  destruct (Hreqs (parseRequirement exprMap)) as (r & Hr & _).
  { by apply parseRequirement_in with exprs. }
  apply requirementOfExpr_fields in Hr as (_ & _ & Hr & _).
  unfold metav1.operatorOf, parseRequirement in Hr. simpl in Hr.
  destruct (exprMap !! "operator") as [[| | |op| |]|] eqn:Hlook;
    simpl in Hr; try discriminate.
  destruct (Hop op eq_refl) as (H1 & H2 & H3 & H4).
  apply String.eqb_neq in H1, H2, H3, H4.
  by rewrite H1, H2, H3, H4 in Hr.
Qed.

Lemma unknown_operator_never_matches_witness :
  selectorMatchesNamespace (specSelecting [requirementOn "in" None])
    {[ "env" := "prod" ]} = false.
Proof.
  apply (unknown_operator_never_matches
           (specSelecting [requirementOn "in" None])
           {[ "matchExpressions" := VList [requirementOn "in" None] ]}
           (<[ "key" := VStr "env" ]> (<[ "operator" := VStr "in" ]> ∅))
           [requirementOn "in" None]);
    [reflexivity | reflexivity | by repeat constructor |].
  intros op Hop. vm_compute in Hop. injection Hop as <-. by repeat split.
Defined.

(** X8. A definition without a [namespaceSelector] map matches no
    namespace; a selector from which no equality and no expression is
    parsed matches every namespace. *)
Theorem selector_absent_or_empty (spec : gmap string Value)
  (nsLabels : gmap string string) :
  (asMap (spec !! "namespaceSelector") = None →
   selectorMatchesNamespace spec nsLabels = false)
  ∧ (∀ nsSelector,
       spec !! "namespaceSelector" = Some (VMap nsSelector) →
       parseMatchLabels nsSelector = ∅ →
       parseMatchExpressions nsSelector = [] →
       selectorMatchesNamespace spec nsLabels = true).
Proof.
  split.
  - unfold selectorMatchesNamespace. by intros ->.
  - intros nsSelector Hspec Hlabels Hexprs.
    apply selectorMatchesNamespace_conjunction. exists nsSelector.
    split; [done|]. rewrite Hlabels, Hexprs. split.
    + intros k v Hkv. by rewrite lookup_empty in Hkv.
    + intros expr Hin. by apply elem_of_nil in Hin.
Qed.

Lemma selector_absent_or_empty_witness :
  selectorMatchesNamespace {[ "network" := VMap ∅ ]} {[ "env" := "prod" ]} = false
  ∧ selectorMatchesNamespace
      {[ "namespaceSelector" :=
           VMap {[ "matchExpressions" := VList [VStr "garbage"] ]} ]}
      {[ "env" := "prod" ]} = true.
Proof.
  split.
  - apply (selector_absent_or_empty {[ "network" := VMap ∅ ]}). reflexivity.
  - apply (selector_absent_or_empty
             {[ "namespaceSelector" :=
                  VMap {[ "matchExpressions" := VList [VStr "garbage"] ]} ]}
             {[ "env" := "prod" ]})
      with {[ "matchExpressions" := VList [VStr "garbage"] ]};
      reflexivity.
Defined.

Section MalformedEntries.

Lemma parse_exprs_filter (exprs : list Value) :
  omap (fun expr => parseRequirement <$> asMap (Some expr))
       (List.filter isMapValue exprs)
  = omap (fun expr => parseRequirement <$> asMap (Some expr)) exprs.
Proof.
  induction exprs as [|v exprs IH]; [done|].
  destruct v; simpl; try exact IH. f_equal. exact IH.
Qed.

Lemma parse_labels_filter (matchLabels : gmap string Value) :
  omap (fun v => asString (Some v))
       (filter (fun kv : string * Value => isStringValue kv.2 = true) matchLabels)
  = omap (fun v => asString (Some v)) matchLabels.
Proof.
  apply map_eq. intros k. rewrite !lookup_omap, map_lookup_filter.
  destruct (matchLabels !! k) as [v|]; simpl; [|done].
  by destruct v.
Qed.

Lemma selectorMatchesNamespace_parse (spec spec' a b : gmap string Value)
  (nsLabels : gmap string string) :
  spec !! "namespaceSelector" = Some (VMap a) →
  spec' !! "namespaceSelector" = Some (VMap b) →
  parseMatchLabels a = parseMatchLabels b →
  parseMatchExpressions a = parseMatchExpressions b →
  selectorMatchesNamespace spec nsLabels = selectorMatchesNamespace spec' nsLabels.
Proof.
  intros Ha Hb Hl He. unfold selectorMatchesNamespace.
  rewrite Ha, Hb. simpl. by rewrite Hl, He.
Qed.

End MalformedEntries.

(** X9. Malformed entries are dropped, not reported: removing the entries
    of [matchExpressions] that are not maps, or the entries of
    [matchLabels] whose value is not a string, does not change the
    matcher's answer. *)
Theorem malformed_selector_entries_ignored
  (spec nsSelector : gmap string Value) (nsLabels : gmap string string) :
  spec !! "namespaceSelector" = Some (VMap nsSelector) →
  (∀ exprs, nsSelector !! "matchExpressions" = Some (VList exprs) →
     selectorMatchesNamespace
       (<[ "namespaceSelector" :=
             VMap (<[ "matchExpressions" := VList (List.filter isMapValue exprs) ]>
                   nsSelector) ]> spec) nsLabels
     = selectorMatchesNamespace spec nsLabels)
  ∧ (∀ matchLabels, nsSelector !! "matchLabels" = Some (VMap matchLabels) →
       selectorMatchesNamespace
         (<[ "namespaceSelector" :=
               VMap (<[ "matchLabels" :=
                          VMap (filter (fun kv : string * Value =>
                                          isStringValue kv.2 = true) matchLabels) ]>
                     nsSelector) ]> spec) nsLabels
       = selectorMatchesNamespace spec nsLabels).
Proof.
  intros Hspec. split.
  - intros exprs Hexprs.
    eapply selectorMatchesNamespace_parse;
      [apply lookup_insert_eq | exact Hspec | |].
    + unfold parseMatchLabels. by rewrite lookup_insert_ne.
    + unfold parseMatchExpressions. rewrite lookup_insert_eq, Hexprs.
      apply parse_exprs_filter.
  - intros matchLabels Hlabels.
    eapply selectorMatchesNamespace_parse;
      [apply lookup_insert_eq | exact Hspec | |].
    + unfold parseMatchLabels. rewrite lookup_insert_eq, Hlabels.
      apply parse_labels_filter.
    + unfold parseMatchExpressions. by rewrite lookup_insert_ne.
Qed.

Lemma malformed_selector_entries_ignored_witness :
  selectorMatchesNamespace
    (<[ "namespaceSelector" :=
          VMap (<[ "matchExpressions" :=
                     VList (List.filter isMapValue
                              [VNum 7; requirementOn "Exists" None]) ]>
                {[ "matchExpressions" :=
                     VList [VNum 7; requirementOn "Exists" None] ]}) ]>
       (specSelecting [VNum 7; requirementOn "Exists" None]))
    {[ "env" := "prod" ]}
  = selectorMatchesNamespace
      (specSelecting [VNum 7; requirementOn "Exists" None])
      {[ "env" := "prod" ]}.
Proof.
  refine (proj1 (malformed_selector_entries_ignored
           (specSelecting [VNum 7; requirementOn "Exists" None])
           {[ "matchExpressions" := VList [VNum 7; requirementOn "Exists" None] ]}
           {[ "env" := "prod" ]} _) [VNum 7; requirementOn "Exists" None] _);
    reflexivity.
Defined.

(** ** The ephemeral origin *)

Section Origin.

Lemma bind_ext {A B} (c1 c2 : M A) (k1 k2 : A -> M B) (s : State) :
  c1 s = c2 s → (∀ a s', k1 a s' = k2 a s') → bind c1 k1 s = bind c2 k2 s.
Proof. unfold bind. intros -> Hk. destruct (c2 s). apply Hk. Qed.

Lemma createServerPod_tolerated (w : World) (pod svc svc' : option error)
  (s : State) :
  tolerated pod →
  createServerPod (withOrigin w pod svc) s
  = createServerPod (withOrigin w None svc') s.
Proof.
  intros Hpod. unfold createServerPod. apply bind_ext; [done|]. intros _ s'.
  simpl. destruct pod as [err|]; [|done]. simpl in Hpod. by rewrite Hpod.
Qed.

Lemma createServerService_tolerated (w : World) (pod pod' svc : option error)
  (s : State) :
  tolerated svc →
  createServerService (withOrigin w pod svc) s
  = createServerService (withOrigin w pod' None) s.
Proof.
  intros Hsvc. unfold createServerService. apply bind_ext; [done|]. intros _ s'.
  simpl. destruct svc as [err|]; [|done]. simpl in Hsvc. by rewrite Hsvc.
Qed.

(** A polling loop whose condition reads the next answer of a sequence
    stops at the first answer other than "not yet", or at the deadline. *)
Lemma pollLoop_first_answer (condition : M (Result bool))
  (counter : State -> nat) (answer : nat -> Result bool) :
  (∀ s, (condition s).1 = answer (counter s)
        ∧ counter (condition s).2 = S (counter s)) →
  ∀ polls s,
    ((∀ j, (j < polls)%nat → answer (counter s + j)%nat = Ok false)
     ∧ (pollLoop polls condition s).1 = Some DeadlineExceeded
     ∧ counter (pollLoop polls condition s).2 = (counter s + polls)%nat)
    ∨ (∃ i, (i < polls)%nat
            ∧ (∀ j, (j < i)%nat → answer (counter s + j)%nat = Ok false)
            ∧ answer (counter s + i)%nat ≠ Ok false
            ∧ (pollLoop polls condition s).1
              = match answer (counter s + i)%nat with
                | Err err => Some err
                | Ok _ => None
                end
            ∧ counter (pollLoop polls condition s).2 = (counter s + i + 1)%nat).
Proof.
  intros Hstep polls. induction polls as [|polls IH]; intros s; simpl.
  - left. split; [intros j Hj; lia|]. split; [done|]. unfold ret. simpl. lia.
  - rewrite bind_run. destruct (Hstep s) as [Hcond Hcount]. rewrite Hcond.
    destruct (answer (counter s)) as [[|]|err] eqn:Hanswer.
    + right. exists 0%nat. rewrite Nat.add_0_r, Hanswer.
      split; [lia|]. split; [intros j Hj; lia|]. split; [done|].
      split; [done|]. unfold ret. simpl. lia.
    + assert (Hshift : ∀ j, answer (counter (condition s).2 + j)%nat
                            = answer (counter s + S j)%nat).
      { intros j. rewrite Hcount. f_equal. lia. }
      destruct (IH (condition s).2)
        as [(Hq & Hr & Hg) | (i & Hi & Hq & Hv & Hr & Hg)].
      * left. split; [|split; [done|lia]].
        intros [|j] Hj; [by rewrite Nat.add_0_r|].
        rewrite <- Hshift. apply Hq. lia.
      * right. exists (S i). rewrite <- Hshift.
        split; [lia|]. split; [|split; [done|split; [done|lia]]].
        intros [|j] Hj; [by rewrite Nat.add_0_r|].
        rewrite <- Hshift. apply Hq. lia.
    + right. exists 0%nat. rewrite Nat.add_0_r, Hanswer.
      split; [lia|]. split; [intros j Hj; lia|]. split; [done|].
      split; [done|]. unfold ret. simpl. lia.
Qed.

Lemma podReady_step (w : World) (s : State) :
  (podReady w s).1 = podAnswer w (podGets s)
  ∧ podGets (podReady w s).2 = S (podGets s).
Proof.
  unfold podReady, nextPodGet, podAnswer, bind, ret. simpl.
  by destruct (getPod w (podGets s)).
Qed.

End Origin.

(** X10. Creating the origin is idempotent: a pod or a service that
    already exists is treated as just created, so the whole HTTP-path
    upload runs exactly as on a cluster where both creations succeed. *)
Theorem existing_origin_is_reused (w : World) (u : GoldenImageUploader)
  (path : string) (s : State) (pod svc : option error) :
  tolerated pod → tolerated svc →
  uploadViaHTTPSource (withOrigin w pod svc) u path s
  = uploadViaHTTPSource (withOrigin w None None) u path s.
Proof.
  intros Hpod Hsvc. unfold uploadViaHTTPSource.
  apply bind_ext; [done|]. intros _ s1.
  apply bind_ext; [by apply createServerPod_tolerated|]. intros [err|] s2; [done|].
  unfold defer. apply bind_ext; [|done].
  apply bind_ext; [done|]. intros _ s3.
  apply bind_ext; [by apply createServerService_tolerated|]. done.
Qed.

Lemma existing_origin_is_reused_witness :
  uploadViaHTTPSource
    (withOrigin quietWorld
       (Some (StatusError ReasonAlreadyExists "pods mcs-image-server already exists"))
       (Some (StatusError ReasonAlreadyExists "services mcs-image-server already exists")))
    greenUploader "./disk.qcow2" initState
  = uploadViaHTTPSource (withOrigin quietWorld None None)
      greenUploader "./disk.qcow2" initState.
Proof. apply existing_origin_is_reused; reflexivity. Defined.

(** X11. The readiness wait of [createServerPod]: a refused creation is
    returned as it is without any fetch of the pod; otherwise the pod is
    fetched at least once and at most once more than there are ticks; nil
    is returned only when the last fetch showed a Ready condition with
    status True; a failed fetch is the last one and its error is returned
    as it is. *)
Theorem server_pod_readiness (w : World) (s : State) :
  (∀ err, createPod w = Some err → IsAlreadyExists err = false →
     (createServerPod w s).1 = Some err ∧ podFetches w s = 0%nat)
  ∧ (tolerated (createPod w) →
     (1 ≤ podFetches w s ≤ S (podTicks w))%nat
     ∧ ((createServerPod w s).1 = None →
        ∃ conditions,
          getPod w (podGets s + podFetches w s - 1) = Ok conditions
          ∧ existsb isReady conditions = true)
     ∧ (∀ i err, (i < podFetches w s)%nat → getPod w (podGets s + i) = Err err →
          (createServerPod w s).1 = Some err ∧ podFetches w s = S i)).
Proof.
  split.
  - intros err Hcreate Hother.
    unfold podFetches, createServerPod, bind, emit, ret. simpl.
    rewrite Hcreate, Hother. simpl. split; [done|lia].
  - intros Htol.
    assert (Hrun : createServerPod w s
                   = pollLoop (S (podTicks w)) (podReady w)
                       (emit EvCreatePod s).2).
    { unfold createServerPod. rewrite bind_run. cbv beta.
      destruct (createPod w) as [err|]; [|done].
      simpl in Htol. by rewrite Htol. }
    unfold podFetches. rewrite Hrun.
    set (s0 := (emit EvCreatePod s).2).
    change (podGets s) with (podGets s0).
    destruct (pollLoop_first_answer (podReady w) podGets (podAnswer w)
                (podReady_step w) (S (podTicks w)) s0)
      as [(Hq & Hr & Hg) | (i0 & Hi0 & Hq & Hv & Hr & Hg)];
      rewrite Hr, Hg.
    + split; [lia|]. split; [done|].
      intros i err Hi Herr. specialize (Hq i ltac:(lia)).
      unfold podAnswer in Hq. by rewrite Herr in Hq.
    + split; [lia|]. split.
      * intros Hnil. unfold podAnswer in Hv, Hnil.
        replace (podGets s0 + (podGets s0 + i0 + 1 - podGets s0) - 1)%nat
          with (podGets s0 + i0)%nat by lia.
        destruct (getPod w (podGets s0 + i0)) as [conditions|]; [|done].
        exists conditions. split; [done|].
        destruct (existsb isReady conditions); [done|]. by destruct Hv.
      * intros i err Hi Herr.
        destruct (decide (i = i0)) as [->|Hne].
        -- unfold podAnswer. rewrite Herr. split; [done|lia].
        -- specialize (Hq i ltac:(lia)). unfold podAnswer in Hq.
           by rewrite Herr in Hq.
Qed.

Lemma server_pod_readiness_witness :
  (createServerPod forbiddenWorld initState).1
  = Some (StatusError ReasonOther "pods is forbidden")
  ∧ (1 ≤ podFetches neverReadyWorld initState ≤ 3)%nat.
Proof.
  split.
  - apply (server_pod_readiness forbiddenWorld initState); reflexivity.
  - apply (server_pod_readiness neverReadyWorld initState). exact I.
Defined.

(** ** Streaming and orchestration *)

(** X12. [streamImageToPod] opens the local file once and closes it
    exactly once when the opening succeeded, as its last action, on every
    path; it does not close a file that was not opened. *)
Theorem stream_closes_file_once (w : World) (path : string) (s : State) :
  countEvents isOpenFile (emitted (streamImageToPod w path) s) = 1%nat
  ∧ countEvents isCloseFile (emitted (streamImageToPod w path) s)
    = match openFile w path with None => 1%nat | Some _ => 0%nat end
  ∧ (openFile w path = None →
     last (emitted (streamImageToPod w path) s) = Some EvCloseFile).
Proof.
  unfold streamImageToPod, defer, bind, emit, ret. simpl.
  destruct (openFile w path); simpl.
  { erewrite emitted_app by reflexivity. done. }
  destruct (fileStat w path) as [size|]; simpl.
  2: { erewrite emitted_app by (simpl; by rewrite <- !app_assoc). done. }
  destruct (newExecutor w); simpl.
  { erewrite emitted_app by (simpl; by rewrite <- !app_assoc). done. }
  destruct (execStream w); simpl.
  { erewrite emitted_app by (simpl; by rewrite <- !app_assoc). done. }
  destruct (tarWriterSends (tarWriter w)); simpl;
    by erewrite emitted_app by (simpl; by rewrite <- !app_assoc).
Qed.

Lemma stream_closes_file_once_witness :
  last (emitted
          (streamImageToPod
             (withStream quietWorld (Some (TransportError "connection reset"))
                (TarWritten 0))
             "./disk.qcow2") initState)
  = Some EvCloseFile.
Proof.
  apply (stream_closes_file_once
           (withStream quietWorld (Some (TransportError "connection reset"))
              (TarWritten 0))
           "./disk.qcow2" initState).
  reflexivity.
Defined.

Section Steps.

Lemma createServerService_result (w : World) (s : State) :
  (createServerService w s).1 = None → tolerated (createService w).
Proof.
  unfold createServerService, tolerated, bind, emit, ret. simpl.
  destruct (createService w) as [err|]; [|done].
  by destruct (IsAlreadyExists err).
Qed.

Lemma createDataVolume_result (w : World) (u : GoldenImageUploader) (s : State) :
  (createDataVolume w u s).1 = None → createDV w (dataVolume u) = None.
Proof.
  unfold createDataVolume, bind, emit, ret. simpl.
  by destruct (createDV w (dataVolume u)).
Qed.

Lemma createServerPod_result (w : World) (s : State) :
  (createServerPod w s).1 = None → tolerated (createPod w).
Proof.
  unfold createServerPod, tolerated. rewrite bind_run. cbv beta.
  destruct (createPod w) as [err|]; [|done].
  by destruct (IsAlreadyExists err).
Qed.

End Steps.

(** X13. [uploadViaHTTPSource] returns nil only if every step went well:
    pod and service created or already there, exec session reached and
    successful, tar writer without error, and the import job accepted by
    the cluster. *)
Theorem http_upload_success_needs_every_step (w : World)
  (u : GoldenImageUploader) (path : string) (s : State) :
  (uploadViaHTTPSource w u path s).1 = None →
  tolerated (createPod w) ∧ streamed w path
  ∧ createDV w (dataVolume u) = None.
Proof.
  unfold uploadViaHTTPSource, streamed.
  rewrite bind_run. cbv beta. rewrite bind_run. cbv beta.
  destruct (createServerPod w _).1 eqn:Hpod; [done|].
  apply createServerPod_result in Hpod.
  rewrite defer_result.
  rewrite bind_run. cbv beta. rewrite bind_run. cbv beta.
  destruct (createServerService w _).1 eqn:Hsvc; [done|].
  apply createServerService_result in Hsvc.
  rewrite bind_run. cbv beta. rewrite bind_run. cbv beta.
  destruct (streamImageToPod w path _).1 eqn:Hstream; [done|].
  apply streamImageToPod_success in Hstream as (Hsession & Hexec & Htar).
  rewrite bind_run. cbv beta. rewrite bind_run. cbv beta.
  destruct (createDataVolume w u _).1 eqn:Hdv; [done|].
  apply createDataVolume_result in Hdv.
  done.
Qed.

Lemma http_upload_success_needs_every_step_witness :
  tolerated (createPod quietWorld) ∧ streamed quietWorld "./disk.qcow2"
  ∧ createDV quietWorld (dataVolume greenUploader) = None.
Proof.
  apply (http_upload_success_needs_every_step quietWorld greenUploader
           "./disk.qcow2" initState).
  by vm_compute.
Defined.

Section Alphabets.

Lemma emitsOnly_weaken {A} (P Q : Event -> Prop) (c : M A) :
  emitsOnly P c → (∀ ev, P ev → Q ev) → emitsOnly Q c.
Proof.
  intros Hc HPQ s. destruct (Hc s) as (evs & Hlog & Hall).
  exists evs. split; [done|]. by eapply Forall_impl.
Qed.

Lemma emitsOnly_silent {A} (P : Event -> Prop) (c : M A) :
  (∀ s, log (c s).2 = log s) → emitsOnly P c.
Proof. intros Hc s. exists []. by rewrite app_nil_r. Qed.

Lemma emitsOnly_nextPodGet (P : Event -> Prop) (w : World) :
  P EvGetPod → emitsOnly P (nextPodGet w).
Proof. intros HP s. exists [EvGetPod]. split; [done|]. by constructor. Qed.

Lemma emitsOnly_nextDVGet (P : Event -> Prop) (w : World) :
  P EvGetDataVolume → emitsOnly P (nextDVGet w).
Proof. intros HP s. exists [EvGetDataVolume]. split; [done|]. by constructor. Qed.

End Alphabets.

(** As [emits_only], with the state-only operations and the two fetches. *)
Ltac emits_alphabet :=
  repeat first
    [ assumption
    | apply emitsOnly_ret
    | apply emitsOnly_emit; reflexivity
    | apply emitsOnly_nextPodGet; reflexivity
    | apply emitsOnly_nextDVGet; reflexivity
    | apply emitsOnly_silent; reflexivity
    | apply emitsOnly_poll
    | apply emitsOnly_defer
    | apply emitsOnly_bind; [|intros ?]
    | match goal with
      | |- emitsOnly _ (match ?x with _ => _ end) => destruct x
      end ].

Section StepAlphabets.

Variable w : World.

Lemma createServerPod_alphabet :
  emitsOnly (fun ev => podEvent ev = true) (createServerPod w).
Proof. unfold createServerPod, podReady. emits_alphabet. Qed.

Lemma createServerService_alphabet :
  emitsOnly (fun ev => serviceEvent ev = true) (createServerService w).
Proof. unfold createServerService. emits_alphabet. Qed.

Lemma streamImageToPod_alphabet path :
  emitsOnly (fun ev => streamEvent ev = true) (streamImageToPod w path).
Proof. unfold streamImageToPod. emits_alphabet. Qed.

Lemma waitForDataVolume_alphabet :
  emitsOnly (fun ev => waitEvent ev = true) (waitForDataVolume w).
Proof.
  unfold waitForDataVolume, dvDone, getLastPhase, setLastPhase, println.
  emits_alphabet.
Qed.

Lemma cleanup_alphabet :
  emitsOnly (fun ev => cleanupEvent ev = true) (cleanup w).
Proof. unfold cleanup, println. emits_alphabet. Qed.

Lemma detection_alphabet u :
  emitsOnly (fun ev => detectionEvent ev = true) (namespaceHasPrimaryUDN w u).
Proof.
  unfold namespaceHasPrimaryUDN, checkNamespaceScopedUDN. emits_alphabet.
Qed.

End StepAlphabets.

Section Runs.

Lemma runs_bind {A B} (c : M A) (k : A -> M B) (s : State)
  (post1 : A -> list Event -> Prop) (post : B -> list Event -> Prop) :
  runs c s post1 →
  (∀ evs1, post1 (c s).1 evs1 →
     runs (k (c s).1) (c s).2 (fun b evs2 => post b (evs1 ++ evs2))) →
  runs (bind c k) s post.
Proof.
  intros (evs1 & Hlog1 & Hpost1) Hk.
  destruct (Hk evs1 Hpost1) as (evs2 & Hlog2 & Hpost2).
  exists (evs1 ++ evs2). rewrite bind_run. split; [|done].
  by rewrite Hlog2, Hlog1, app_assoc.
Qed.

Lemma runs_ret {A} (a : A) (s : State) (post : A -> list Event -> Prop) :
  post a [] → runs (ret a) s post.
Proof. intros Hpost. exists []. by rewrite app_nil_r. Qed.

Lemma runs_emitsOnly {A} (P : Event -> Prop) (c : M A) (s : State) :
  emitsOnly P c → runs c s (fun _ evs => Forall P evs).
Proof. intros Hc. exact (Hc s). Qed.

Lemma runs_emitted {A} (c : M A) (s : State) (post : A -> list Event -> Prop) :
  runs c s post → post (c s).1 (emitted c s).
Proof. intros (evs & Hlog & Hpost). by rewrite (emitted_app c s evs). Qed.

Lemma alphabet_avoids {A} (q p : Event -> bool) (c : M A) :
  emitsOnly (fun ev => q ev = true) c →
  (∀ ev, q ev = true → p ev = false) →
  emitsOnly (fun ev => p ev = false) c.
Proof. intros Hc Hqp. by apply emitsOnly_weaken with (fun ev => q ev = true). Qed.

Lemma println_avoids (p : Event -> bool) (line : string) :
  p (EvPrint (OutLine line)) = false →
  emitsOnly (fun ev => p ev = false) (println line).
Proof. intros Hp. by apply emitsOnly_emit. Qed.

End Runs.

(** Proves that a step never emits an event of the kind [p], from the
    step's alphabet. *)
Ltac avoids :=
  first
    [ apply println_avoids; reflexivity
    | eapply alphabet_avoids;
      [ first [ apply createServerPod_alphabet
              | apply createServerService_alphabet
              | apply streamImageToPod_alphabet
              | apply waitForDataVolume_alphabet
              | apply cleanup_alphabet
              | apply detection_alphabet ]
      | let ev := fresh "ev" in
        intros ev; destruct ev; try done;
        match goal with o : Output |- _ => by destruct o end ] ].

(** One step of a run that emits no event of the kind counted. *)
Ltac quiet_step p evs H :=
  eapply runs_bind;
    [ apply (runs_emitsOnly (fun ev => p ev = false)); avoids
    | intros evs H; apply (countEvents_none p) in H ].

(** X14. In a run of [uploadViaHTTPSource] the import job is submitted at
    most once, and only after the service is there, the exec session has
    succeeded and the tar writer has reported no error: a failed push never
    leads to a DataVolume. *)
Theorem data_volume_only_after_push (w : World) (u : GoldenImageUploader)
  (path : string) (s : State) :
  (countEvents isCreateDataVolume (emitted (uploadViaHTTPSource w u path) s)
   ≤ 1)%nat
  ∧ (countEvents isCreateDataVolume (emitted (uploadViaHTTPSource w u path) s)
     ≠ 0%nat → streamed w path).
Proof.
  assert (Hrun : runs (uploadViaHTTPSource w u path) s
            (fun _ evs =>
               countEvents isCreateDataVolume evs = 0%nat
               ∨ (countEvents isCreateDataVolume evs = 1%nat
                  ∧ streamed w path))).
  { unfold uploadViaHTTPSource.
    quiet_step isCreateDataVolume evs1 H1.
    quiet_step isCreateDataVolume evs2 H2.
    destruct (createServerPod w _).1.
    { apply runs_ret. left. rewrite ?app_nil_r, ?countEvents_app. lia. }
    unfold defer.
    eapply runs_bind with
      (post1 := fun _ evs =>
                  countEvents isCreateDataVolume evs = 0%nat
                  ∨ (countEvents isCreateDataVolume evs = 1%nat
                     ∧ streamed w path)).
    2: { intros evs3 H3. quiet_step isCreateDataVolume evs4 H4.
         apply runs_ret. rewrite ?app_nil_r, ?countEvents_app.
         destruct H3 as [H3 | [H3 Hst]]; [left; lia | right; split; [lia|done]]. }
    quiet_step isCreateDataVolume evs3 H3.
    quiet_step isCreateDataVolume evs4 H4.
    destruct (createServerService w _).1 eqn:Hsvc.
    { apply runs_ret. left. rewrite ?app_nil_r, ?countEvents_app. lia. }
    apply createServerService_result in Hsvc.
    quiet_step isCreateDataVolume evs5 H5.
    quiet_step isCreateDataVolume evs6 H6.
    destruct (streamImageToPod w path _).1 eqn:Hstream.
    { apply runs_ret. left. rewrite ?app_nil_r, ?countEvents_app. lia. }
    apply streamImageToPod_success in Hstream as (Hsession & Hexec & Htar).
    assert (Hst : streamed w path) by done.
    quiet_step isCreateDataVolume evs7 H7.
    eapply runs_bind with
      (post1 := fun _ evs => countEvents isCreateDataVolume evs = 1%nat).
    { unfold createDataVolume, bind, emit, ret. simpl.
      exists [EvCreateDataVolume (dataVolume u)].
      by destruct (createDV w (dataVolume u)). }
    intros evs8 H8.
    destruct (createDataVolume w u _).1.
    { apply runs_ret. right. split; [|done].
      rewrite ?app_nil_r, ?countEvents_app. lia. }
    quiet_step isCreateDataVolume evs9 H9.
    quiet_step isCreateDataVolume evs10 H10.
    destruct (waitForDataVolume w _).1.
    { apply runs_ret. right. split; [|done].
      rewrite ?app_nil_r, ?countEvents_app. lia. }
    quiet_step isCreateDataVolume evs11 H11.
    apply runs_ret. right. split; [|done].
    rewrite ?app_nil_r, ?countEvents_app. lia. }
  apply runs_emitted in Hrun. destruct Hrun as [-> | [-> Hst]]; split; done || lia.
Qed.

Lemma data_volume_only_after_push_witness :
  streamed quietWorld "./disk.qcow2".
Proof.
  apply (data_volume_only_after_push quietWorld greenUploader "./disk.qcow2"
           initState).
  by vm_compute.
Defined.

(** X15. [Upload] returns nil, or issues any call that changes the cluster
    (a creation, a deletion, an exec session), only if the local file
    exists and the detector has answered true: without a Primary UDN
    nothing is created. *)
Theorem upload_acts_only_on_udn (w : World) (u : GoldenImageUploader)
  (path : string) (s : State) :
  (Upload w u path s).1 = None
  ∨ countEvents isMutation (emitted (Upload w u path) s) ≠ 0%nat →
  (∃ size, statPath w path = Ok size)
  ∧ (namespaceHasPrimaryUDN w u s).1 = Ok true.
Proof.
  intros Hacts.
  destruct (statPath w path) as [size|err] eqn:Hstat.
  2: { exfalso. unfold Upload in Hacts. rewrite Hstat in Hacts.
       unfold emitted, ret in Hacts. simpl in Hacts.
       rewrite drop_all in Hacts. by destruct Hacts. }
  split; [eauto|].
  destruct (namespaceHasPrimaryUDN w u s).1 as [[|]|err] eqn:Hdetect; [done| |];
    exfalso.
  - assert (Hrun : runs (Upload w u path) s
              (fun r evs => r ≠ None ∧ countEvents isMutation evs = 0%nat)).
    { unfold Upload. rewrite Hstat.
      quiet_step isMutation evs1 H1. rewrite Hdetect.
      quiet_step isMutation evs2 H2.
      apply runs_ret. split; [done|]. rewrite ?app_nil_r, ?countEvents_app. lia. }
    apply runs_emitted in Hrun as [Hr Hc]. by destruct Hacts.
  - assert (Hrun : runs (Upload w u path) s
              (fun r evs => r ≠ None ∧ countEvents isMutation evs = 0%nat)).
    { unfold Upload. rewrite Hstat.
      quiet_step isMutation evs1 H1. rewrite Hdetect.
      apply runs_ret. split; [done|]. rewrite ?app_nil_r, ?countEvents_app. lia. }
    apply runs_emitted in Hrun as [Hr Hc]. by destruct Hacts.
Qed.

Lemma upload_acts_only_on_udn_witness :
  (∃ size, statPath
             (withLists (worldWithLabels prodLabels)
                (Ok [cudnWithSelector selectEnvProd]) (Ok []))
             "./disk.qcow2" = Ok size)
  ∧ (namespaceHasPrimaryUDN
       (withLists (worldWithLabels prodLabels)
          (Ok [cudnWithSelector selectEnvProd]) (Ok []))
       greenUploader initState).1 = Ok true.
Proof.
  apply (upload_acts_only_on_udn
           (withLists (worldWithLabels prodLabels)
              (Ok [cudnWithSelector selectEnvProd]) (Ok []))
           greenUploader "./disk.qcow2" initState).
  left. by vm_compute.
Defined.

(** ** The import job *)

(** X16. The DataVolume that [createDataVolume] submits: its HTTP source
    is the in-cluster address of the server's service in the uploader's
    namespace, it requests the uploader's size, it carries the
    immediate-binding annotation, and it names a storage class exactly
    when the uploader's storage class is not empty. *)
Theorem data_volume_shape (u : GoldenImageUploader) :
  lookupPath (dataVolume u) ["spec"; "source"; "http"; "url"]
  = Some (VStr ("http://mcs-image-server." +:+ namespace u
                +:+ ".svc.cluster.local:80/disk.qcow2"))
  ∧ lookupPath (dataVolume u)
      ["spec"; "storage"; "resources"; "requests"; "storage"]
    = Some (VStr (pvcSize u))
  ∧ lookupPath (dataVolume u) ["spec"; "storage"; "storageClassName"]
    = (if String.eqb (storageClass u) "" then None
       else Some (VStr (storageClass u)))
  ∧ lookupPath (dataVolume u) ["metadata"; "name"] = Some (VStr (pvcName u))
  ∧ lookupPath (dataVolume u) ["metadata"; "namespace"]
    = Some (VStr (namespace u))
  ∧ lookupPath (dataVolume u)
      ["metadata"; "annotations";
       "cdi.kubevirt.io/storage.bind.immediate.requested"]
    = Some (VStr "")
  ∧ lookupPath (dataVolume u) ["kind"] = Some (VStr "DataVolume")
  ∧ lookupPath (dataVolume u) ["apiVersion"]
    = Some (VStr "cdi.kubevirt.io/v1beta1").
Proof.
  destruct u as [ns name size class]. unfold dataVolume, httpURL. simpl.
  destruct (String.eqb class "") eqn:Hclass; simpl; repeat split;
    by vm_compute.
Qed.

(** X17. [waitForDataVolume] fetches the job at least once and at most
    once more than there are ticks, and it returns the deadline error
    exactly when every one of these fetches showed a job that is neither
    Succeeded nor Failed. *)
Theorem import_wait_deadline (w : World) (s : State) :
  (1 ≤ fetches w s ≤ S (dvTicks w))%nat
  ∧ ((waitForDataVolume w s).1 = Some DeadlineExceeded
     ↔ quietBefore w s (S (dvTicks w))).
Proof.
  destruct (waitForDataVolume_cases w s)
    as [(Hq & Hr & Hg) | (i0 & Hi0 & Hq & Hv0 & Hr & Hg)].
  - split; [lia|]. by split.
  - split; [lia|]. split.
    + rewrite Hr. by destruct (verdict (answerAt w s i0)).
    + intros Hquiet. destruct Hv0. by apply Hquiet.
Qed.

(** ** Cleanup *)

(** X18. [cleanup] treats NotFound like success: with answers that are
    nil or NotFound it runs exactly as on a cluster where both deletions
    succeed; and it prints one warning for each deletion that failed
    otherwise, still issuing both deletions. *)
Theorem cleanup_is_best_effort (w : World) (s : State) (svc pod : option error) :
  (deletionFailed svc = false → deletionFailed pod = false →
   cleanup (withDeletes w svc pod) s = cleanup (withDeletes w None None) s)
  ∧ countEvents isWarningLine (emitted (cleanup (withDeletes w svc pod)) s)
    = (Nat.b2n (deletionFailed svc) + Nat.b2n (deletionFailed pod))%nat
  ∧ countEvents isDeleteService (emitted (cleanup (withDeletes w svc pod)) s)
    = 1%nat
  ∧ countEvents isDeletePod (emitted (cleanup (withDeletes w svc pod)) s)
    = 1%nat.
Proof.
  split; [|split].
  - unfold deletionFailed, cleanup, println, bind, emit, ret. simpl.
    destruct svc as [e1|], pod as [e2|]; simpl;
      try destruct (IsNotFound e1); try destruct (IsNotFound e2); simpl;
      by intros.
  - erewrite emitted_app by apply cleanup_log.
    unfold cleanupEvents, cleanupWarning, deletionFailed. simpl.
    destruct svc as [e1|], pod as [e2|]; simpl;
      try destruct (IsNotFound e1); try destruct (IsNotFound e2); done.
  - erewrite emitted_app by apply cleanup_log.
    apply cleanupEvents_once.
Qed.

Lemma cleanup_is_best_effort_witness :
  cleanup
    (withDeletes quietWorld
       (Some (StatusError ReasonNotFound "services mcs-image-server not found"))
       None) initState
  = cleanup (withDeletes quietWorld None None) initState.
Proof. apply cleanup_is_best_effort; reflexivity. Defined.

(** ** Phase notifications *)

Section PhaseLog.

Lemma adjacentDistinct_snoc {A} (l : list A) (y : A) :
  adjacentDistinct l → (∀ x, last l = Some x → x ≠ y) →
  adjacentDistinct (l ++ [y]).
Proof.
  intros Hl Hlast i a b Ha Hb.
  destruct (decide (S i < length l)%nat) as [Hlt|Hge].
  - rewrite lookup_app_l in Ha, Hb by lia. by eapply Hl.
  - destruct (decide (S i = length l)) as [Heq|Hne].
    + rewrite lookup_app_l in Ha by lia.
      rewrite lookup_app_r, <- Heq, Nat.sub_diag in Hb by lia.
      injection Hb as <-. apply Hlast.
      rewrite last_lookup, <- Heq. exact Ha.
    + apply lookup_lt_Some in Hb. rewrite length_app in Hb. simpl in Hb. lia.
Qed.

Lemma phaseLine_inj (p q : string) : phaseLine p = phaseLine q → p = q.
Proof. unfold phaseLine. intros Heq. vm_compute in Heq. by injection Heq. Qed.

Lemma phaseLog_snoc (acc : list Output) (lp phase : string) :
  phaseLog acc lp → phase ≠ lp → phaseLog (acc ++ [phaseLine phase]) phase.
Proof.
  intros (Hadj & Hlast & Hnil & Hhead) Hne. repeat split.
  - apply adjacentDistinct_snoc; [done|]. intros o Ho.
    rewrite (Hlast o Ho). intros Heq. apply phaseLine_inj in Heq. congruence.
  - intros o. rewrite last_snoc. by intros [= <-].
  - by destruct acc.
  - intros o. destruct acc as [|o' acc]; simpl.
    + intros [= <-] Heq. apply phaseLine_inj in Heq.
      rewrite Hnil in Hne by done. done.
    + intros [= <-]. by apply Hhead.
Qed.

Variable w : World.

Lemma dvDone_phaseLog (s : State) (acc : list Output) :
  phaseLog acc (lastPhase s) →
  ∃ evs, log (dvDone w s).2 = log s ++ evs
         ∧ phaseLog (acc ++ printed evs) (lastPhase (dvDone w s).2)
         ∧ (length (printed evs) ≤ 1)%nat.
Proof.
  intros Hinv.
  unfold dvDone, nextDVGet, getLastPhase, setLastPhase, println, emit, bind, ret.
  destruct (getDV w (dvGets s)) as [dv|err]; simpl.
  2: { exists [EvGetDataVolume]. simpl. rewrite app_nil_r. split; [done|].
       split; [done|lia]. }
  destruct (asMap (dv !! "status")) as [status|]; simpl.
  2: { exists [EvGetDataVolume]. simpl. rewrite app_nil_r. split; [done|].
       split; [done|lia]. }
  set (phase := default "" (asString (status !! "phase"))).
  destruct (String.eqb phase (lastPhase s)) eqn:Hsame; simpl.
  - exists [EvGetDataVolume].
    destruct (String.eqb phase DVPhaseFailed); simpl; rewrite app_nil_r;
      (split; [done|]; split; [done|lia]).
  - apply String.eqb_neq in Hsame.
    exists [EvGetDataVolume; EvPrint (phaseLine phase)].
    destruct (String.eqb phase DVPhaseFailed); simpl;
      (split; [by rewrite <- app_assoc|];
       split; [by apply phaseLog_snoc with (lastPhase s) | lia]).
Qed.

Lemma pollLoop_phaseLog (polls : nat) (s : State) (acc : list Output) :
  phaseLog acc (lastPhase s) →
  ∃ evs, log (pollLoop polls (dvDone w) s).2 = log s ++ evs
         ∧ phaseLog (acc ++ printed evs)
             (lastPhase (pollLoop polls (dvDone w) s).2)
         ∧ (length (printed evs) ≤ polls)%nat.
Proof.
  revert s acc. induction polls as [|polls IH]; intros s acc Hinv; simpl.
  - exists []. unfold ret. simpl. rewrite !app_nil_r. split; [done|].
    split; [done|lia].
  - rewrite bind_run.
    destruct (dvDone_phaseLog s acc Hinv) as (evs1 & Hlog1 & Hinv1 & Hlen1).
    destruct (dvDone w s).1 as [[|]|err].
    + exists evs1. unfold ret. simpl. split; [done|]. split; [done|lia].
    + destruct (IH (dvDone w s).2 (acc ++ printed evs1) Hinv1)
        as (evs2 & Hlog2 & Hinv2 & Hlen2).
      exists (evs1 ++ evs2). unfold printed in *. rewrite omap_app.
      split; [by rewrite Hlog2, Hlog1, app_assoc|].
      split; [by rewrite app_assoc|]. rewrite length_app. lia.
    + exists evs1. unfold ret. simpl. split; [done|]. split; [done|lia].
Qed.

End PhaseLog.

(** X19. [waitForDataVolume] prints a phase line only when the phase
    differs from the one it remembered: no two consecutive lines it prints
    are equal, the first line never shows the empty phase, and it prints at
    most one line per possible fetch. *)
Theorem phase_lines_only_on_change (w : World) (s : State) :
  adjacentDistinct (printed (emitted (waitForDataVolume w) s))
  ∧ (∀ o, head (printed (emitted (waitForDataVolume w) s)) = Some o →
          o ≠ phaseLine "")
  ∧ (length (printed (emitted (waitForDataVolume w) s)) ≤ S (dvTicks w))%nat.
Proof.
  destruct (pollLoop_phaseLog w (S (dvTicks w)) (setLastPhase "" s).2 [])
    as (evs & Hlog & (Hadj & _ & _ & Hhead) & Hlen).
  { repeat split; try done; intros i x y Hx; by rewrite lookup_nil in Hx. }
  assert (Hem : emitted (waitForDataVolume w) s = evs).
  { apply emitted_app. unfold waitForDataVolume. rewrite bind_run. exact Hlog. }
  rewrite Hem. done.
Qed.

Lemma phase_lines_only_on_change_witness :
  head (printed
          (emitted (waitForDataVolume (withDataVolume quietWorld failingJob 720))
             initState))
  = Some (phaseLine "ImportScheduled")
  ∧ phaseLine "ImportScheduled" ≠ phaseLine "".
Proof.
  split; [by vm_compute|].
  apply (phase_lines_only_on_change
           (withDataVolume quietWorld failingJob 720) initState).
  by vm_compute.
Defined.

(** ** The command line *)

Section Main.

Lemma Upload_nil_detected (w : World) (u : GoldenImageUploader)
  (path : string) (s : State) :
  (Upload w u path s).1 = None →
  (namespaceHasPrimaryUDN w u s).1 = Ok true.
Proof.
  unfold Upload. destruct (statPath w path); [|done].
  rewrite bind_run. cbv beta.
  by destruct (namespaceHasPrimaryUDN w u s).1 as [[|]|].
Qed.

Lemma requiredFlagsGiven_test (f : Flags) :
  String.eqb (flagNamespace f) "" || String.eqb (flagName f) ""
  || String.eqb (flagImagePath f) "" = false
  ↔ requiredFlagsGiven f.
Proof.
  unfold requiredFlagsGiven.
  rewrite !orb_false_iff, !String.eqb_neq. tauto.
Qed.

End Main.

(** X20. The process exits with status 0 or 1.  It exits with 0 only if
    the three required flags are given, the clients could be built and the
    detector answered true for the namespace of the flags, and it then
    prints the confirmation.  With a required flag missing it prints the
    usage and exits with 1 before building any client or calling the
    cluster. *)
Theorem main_exit_status (h : Host) (f : Flags) :
  (exitCode (main h f) = 0 ∨ exitCode (main h f) = 1)
  ∧ (exitCode (main h f) = 0 →
     requiredFlagsGiven f
     ∧ buildConfig h (flagKubeconfig f) = None
     ∧ newK8sClient h = None ∧ newDynamicClient h = None
     ∧ (namespaceHasPrimaryUDN (cluster h) (uploaderOf f) initState).1 = Ok true
     ∧ console (main h f) = [Completed])
  ∧ (¬ requiredFlagsGiven f →
     main h f = {| exitCode := 1; console := [Usage]; run := initState |}).
Proof.
  unfold main, NewGoldenImageUploader.
  destruct (_ || _ || _) eqn:Hflags.
  - split; [by right|]. split; [done|]. done.
  - apply requiredFlagsGiven_test in Hflags.
    destruct (buildConfig h (flagKubeconfig f)); [by repeat split; auto|].
    destruct (newK8sClient h); [by repeat split; auto|].
    destruct (newDynamicClient h); [by repeat split; auto|].
    fold (uploaderOf f).
    pose proof (Upload_nil_detected (cluster h) (uploaderOf f) (flagImagePath f)
                  initState) as Hdetect.
    destruct (Upload (cluster h) (uploaderOf f) (flagImagePath f) initState)
      as [[err|] s]; simpl in *.
    + by repeat split; auto.
    + split; [by left|]. split; [|done]. intros _.
      split; [exact Hflags|]. repeat split; auto.
Qed.

Lemma main_exit_status_witness :
  main (quietHost quietWorld)
    {| flagKubeconfig := ""; flagNamespace := "green-namespace";
       flagName := ""; flagSize := "10Gi"; flagStorageClass := "";
       flagImagePath := "./disk.qcow2" |}
  = {| exitCode := 1; console := [Usage]; run := initState |}.
Proof.
  apply (main_exit_status (quietHost quietWorld)).
  intros (_ & Hname & _). by apply Hname.
Defined.
